(** * GreenCredit-AI: the assessment pipeline of [src/App.tsx]

    A shallow embedding of the [App] component's orchestration logic
    ([runAnalysis], the debounce effect, [handleInputChange], [nextStep]
    and [prevStep]) and of the seven stage adapters of
    [src/services/geminiService.ts], as an event-driven state machine.
    The earlier version of the component kept in [src/unnamed/part_000]
    is embedded in the module [Legacy], over the same records.

    Conventions of the embedding.
    - The component state is the record [app]; an [event] is one task of
      the JavaScript event loop (a DOM event, a timer, the settlement of
      the promise of an oracle call).  Each task runs to completion, so
      [dispatch] is a function.
    - An invocation of the async function [runAnalysis] is a coroutine:
      the record [run] holds its local variables and the [await] it is
      suspended at ([run_pc]).
    - A closure reads the state of the render that created it; React
      re-renders between two tasks, so an event handler reads the state
      left by the previous task.
    - The built-ins [JSON.parse] and [Number] belong to the runtime, not
      to the repository: the development is parametric in them ([Host]).
    - JSON numbers and slider values are integers ([Z]).
    - Time is a clock in milliseconds that only [Elapse] advances; the
      host fires a timeout at its deadline.
    - After [Unmount] the record goes on recording what the setters are
      called with, although nothing renders it any more. *)

From stdpp Require Import gmap strings list.
From Stdlib Require Import ZArith Lia Ascii.

Local Open Scope string_scope.
Local Open Scope Z_scope.
Local Open Scope list_scope.

(** ** Values *)

(** What [JSON.parse] returns. *)
#[warnings="-register-all"]
Inductive json :=
| JNull
| JBool (b : bool)
| JNum (n : Z)
| JStr (s : string)
| JArr (items : list json)
| JObj (fields : list (string * json)).

(** [if (v)]: null, false, 0 and the empty string are falsy. *)
Definition truthy (v : json) : bool :=
  match v with
  | JNull => false
  | JBool b => b
  | JNum n => negb (Z.eqb n 0)
  | JStr s => negb (String.eqb s EmptyString)
  | JArr _ | JObj _ => true
  end.

(** [v.p] throws a TypeError exactly when [v] is null. *)
Definition is_null (v : json) : bool :=
  match v with JNull => true | _ => false end.

(** [o.key] on a parsed object; [None] is [undefined]. *)
Fixpoint assoc (key : string) (fields : list (string * json)) : option json :=
  match fields with
  | [] => None
  | (k, v) :: rest => if String.eqb k key then Some v else assoc key rest
  end.

Definition get_field (key : string) (v : json) : option json :=
  match v with JObj fields => assoc key fields | _ => None end.

(** [`${v}`]: the string conversion of a template literal does not
    throw.  An array is joined, each element converted in turn; an object
    is converted by [Object.prototype.toString] unless an own [toString]
    property hides it: parsed from JSON that property is never callable,
    [valueOf] returns the object itself, and the conversion throws a
    TypeError for want of a primitive value. *)
Fixpoint converts (v : json) : bool :=
  match v with
  | JArr items => forallb converts items
  | JObj fields =>
      match assoc "toString" fields with Some _ => false | None => true end
  | _ => true
  end.

(** [`${v.score}`] throws a TypeError when [v] is null and when the score
    has no string conversion; a missing score prints as [undefined]. *)
Definition score_throws (v : json) : bool :=
  is_null v
  || match get_field "score" v with
     | Some x => negb (converts x)
     | None => false
     end.

(** A field of [BorrowerInput]: a number ([None] is NaN) or a string. *)
Inductive jsval :=
| VNum (n : option Z)
| VStr (s : string).

Global Instance jsval_eq_dec : EqDecision jsval.
Proof. solve_decision. Defined.

(** [BorrowerInput] is a plain object: [{...prev, [name]: v}] is an insert. *)
Abbreviation BorrowerInput := (gmap string jsval).

(** The runtime built-ins the code calls. [JSON_parse] returns [None]
    where [JSON.parse] throws a SyntaxError; [Number] returns [None] for
    NaN. *)
Class Host := {
  JSON_parse : string → option json;
  Number : string → option Z
}.

(** ** The stage adapters ([src/services/geminiService.ts]) *)

Inductive stage :=
| StNormalize | StFinancial | StSustainability | StDecision
| StUplift | StSimulate | StReview.

Global Instance stage_eq_dec : EqDecision stage.
Proof. solve_decision. Defined.

Inductive error := TypeError | SyntaxError | OracleError.

(** How the promise of [ai.models.generateContent] settles. *)
Inductive response :=
| Rejected
| Responded (text : string).

(** The arguments an adapter is called with. *)
Inductive args :=
| ArgInput (input : BorrowerInput)
| ArgJson (vs : list json).

(** The data an adapter interpolates into the prompt of its oracle call
    ([None] is [undefined]).  The prompt text around the data and the
    [responseSchema] are constants of the adapter; both are sent to the
    oracle and neither is consulted again once the answer arrives. *)
Inductive prompt :=
| PromptInput (input : BorrowerInput)
| PromptJson (vs : list (option json)).

(** Every adapter ends with [return JSON.parse(response.text)]. *)
Definition parse_response `{Host} (r : response) : error + json :=
  match r with
  | Rejected => inl OracleError
  | Responded text =>
      match JSON_parse text with
      | Some v => inr v
      | None => inl SyntaxError
      end
  end.

(** The part of an adapter before its [await]: building the prompt.  It
    throws when the prompt reads a property of null or prints a score
    that has no string conversion ([JSON.stringify] never throws on a
    parsed value). *)
Definition normalizeData (input : BorrowerInput) : error + prompt :=
  inr (PromptInput input).

Definition assessFinancialRisk (data : json) : error + prompt :=
  if is_null data then inl TypeError
  else inr (PromptJson [get_field "financial" data]).

Definition assessSustainabilityRisk (data : json) : error + prompt :=
  if is_null data then inl TypeError
  else inr (PromptJson [get_field "sustainability" data]).

Definition getDecision (financial sustainability : json) : error + prompt :=
  if score_throws financial || score_throws sustainability then inl TypeError
  else inr (PromptJson [get_field "score" financial;
                        get_field "score" sustainability]).

Definition planUplift (current : json) : error + prompt :=
  if score_throws current then inl TypeError
  else inr (PromptJson [get_field "score" current]).

Definition simulateClimate (financial sustainability : json)
  : error + prompt :=
  if score_throws financial || score_throws sustainability then inl TypeError
  else inr (PromptJson [get_field "score" financial;
                        get_field "score" sustainability]).

Definition getReview (history : json) : error + prompt :=
  inr (PromptJson [Some history]).

(** ** One invocation of [runAnalysis]

    Everything an invocation does, in program order: the history of a run
    is a list of these. *)
Inductive action :=
| Invoke (st : stage) (a : args)       (* [gemini.<adapter>(...)] is called *)
| Request (st : stage) (p : prompt)    (* the adapter calls the oracle *)
| Resolved (st : stage) (v : json)     (* the promise of [st] fulfilled with [v] *)
| Failed (st : stage) (e : error)      (* the [await] on [st] throws [e] *)
| Publish (st : stage) (v : json)      (* the state setter of [st] is called *)
| SetStep (n : Z)
| SetLoading (b : bool)
| SetRealTimeUpdate (b : bool)
| ConsoleError (e : error)
| Alert (msg : string).

(** One member of a [Promise.all]. *)
Inductive slot :=
| Waiting
| Got (v : json).

(** The [await] a run is suspended at, with the locals bound so far. *)
Inductive run_pc :=
| AwaitNormalize
| AwaitRisk (norm : json) (fin sust : slot)
| AwaitDecision (norm fin sust : json)
| AwaitUpliftSim (norm fin sust dec : json) (up sim : slot)
| AwaitReview (norm fin sust dec up sim : json)
| Finished.

(** How a resumed run leaves the [try] block. *)
Inductive outcome :=
| Suspend (pc : run_pc)      (* at the next [await] *)
| Raise (e : error)          (* into [catch] *)
| Return.                    (* past the last statement *)

Module AppStep.
Definition Input : Z := 1.
Definition Normalization : Z := 2.
Definition FinancialRisk : Z := 3.
Definition SustainabilityRisk : Z := 4.
Definition Decision : Z := 5.
Definition Uplift : Z := 6.
Definition Simulation : Z := 7.
Definition Review : Z := 8.
End AppStep.

(** Calling an adapter: it runs up to its [await] at once. *)
Definition call (st : stage) (a : args) (r : error + prompt) : list action :=
  Invoke st a :: match r with inr p => [Request st p] | inl _ => [] end.

(** [await adapter(...)] right after the call: the run suspends when the
    oracle was called and goes to [catch] when the adapter threw. *)
Definition await1 (st : stage) (r : error + prompt) (pc : run_pc)
  : list action * outcome :=
  match r with
  | inr _ => ([], Suspend pc)
  | inl e => ([Failed st e], Raise e)
  end.

(** [await Promise.all([p1, p2])] right after the two calls: the first
    rejected member, in order, rejects the whole. *)
Definition await2 (st1 : stage) (r1 : error + prompt)
    (st2 : stage) (r2 : error + prompt) (pc : run_pc)
  : list action * outcome :=
  match r1, r2 with
  | inr _, inr _ => ([], Suspend pc)
  | inl e, _ => ([Failed st1 e], Raise e)
  | inr _, inl e => ([Failed st2 e], Raise e)
  end.

Definition prepend (l : list action) (r : list action * outcome)
  : list action * outcome :=
  (l ++ r.1, r.2).

(** Lines 61-66. *)
Definition after_normalize (norm : json) : list action * outcome :=
  let r1 := assessFinancialRisk norm in
  let r2 := assessSustainabilityRisk norm in
  prepend ([Resolved StNormalize norm; Publish StNormalize norm]
             ++ call StFinancial (ArgJson [norm]) r1
             ++ call StSustainability (ArgJson [norm]) r2)
    (await2 StFinancial r1 StSustainability r2
       (AwaitRisk norm Waiting Waiting)).

(** Lines 67-70. *)
Definition after_risk (norm fin sust : json) : list action * outcome :=
  let r := getDecision fin sust in
  prepend ([Publish StFinancial fin; Publish StSustainability sust]
             ++ call StDecision (ArgJson [fin; sust]) r)
    (await1 StDecision r (AwaitDecision norm fin sust)).

(** Lines 71-76. *)
Definition after_decision (norm fin sust dec : json) : list action * outcome :=
  let r1 := planUplift sust in
  let r2 := simulateClimate fin sust in
  prepend ([Resolved StDecision dec; Publish StDecision dec]
             ++ call StUplift (ArgJson [sust]) r1
             ++ call StSimulate (ArgJson [fin; sust]) r2)
    (await2 StUplift r1 StSimulate r2
       (AwaitUpliftSim norm fin sust dec Waiting Waiting)).

(** Lines 77-80. *)
Definition after_uplift_sim (norm fin sust dec up sim : json)
  : list action * outcome :=
  let history := JObj [("norm", norm); ("fin", fin); ("sust", sust);
                       ("dec", dec); ("up", up); ("sim", sim)] in
  let r := getReview history in
  prepend ([Publish StUplift up; Publish StSimulate sim]
             ++ call StReview (ArgJson [history]) r)
    (await1 StReview r (AwaitReview norm fin sust dec up sim)).

(** Lines 81-83. *)
Definition after_review (isRealTime : bool) (rev : json)
  : list action * outcome :=
  ([Resolved StReview rev; Publish StReview rev]
     ++ (if isRealTime then [] else [SetStep AppStep.Normalization]),
   Return).

(** The body of the [try] block, resumed when the promise of the call of
    [st] settles with [r].  [None]: the run is not waiting for [st] (the
    call was never made, has settled already, or its [Promise.all] has
    already rejected). *)
Definition resume `{Host} (isRealTime : bool) (pc : run_pc)
    (st : stage) (r : response) : option (list action * outcome) :=
  match pc, st with
  | AwaitNormalize, StNormalize =>
      Some match parse_response r with
           | inl e => ([Failed StNormalize e], Raise e)
           | inr norm => after_normalize norm
           end
  | AwaitRisk norm Waiting sust, StFinancial =>
      Some match parse_response r with
           | inl e => ([Failed StFinancial e], Raise e)
           | inr fin =>
               match sust with
               | Waiting =>
                   ([Resolved StFinancial fin],
                    Suspend (AwaitRisk norm (Got fin) Waiting))
               | Got sv =>
                   prepend [Resolved StFinancial fin] (after_risk norm fin sv)
               end
           end
  | AwaitRisk norm fin Waiting, StSustainability =>
      Some match parse_response r with
           | inl e => ([Failed StSustainability e], Raise e)
           | inr sust =>
               match fin with
               | Waiting =>
                   ([Resolved StSustainability sust],
                    Suspend (AwaitRisk norm Waiting (Got sust)))
               | Got fv =>
                   prepend [Resolved StSustainability sust]
                     (after_risk norm fv sust)
               end
           end
  | AwaitDecision norm fin sust, StDecision =>
      Some match parse_response r with
           | inl e => ([Failed StDecision e], Raise e)
           | inr dec => after_decision norm fin sust dec
           end
  | AwaitUpliftSim norm fin sust dec Waiting sim, StUplift =>
      Some match parse_response r with
           | inl e => ([Failed StUplift e], Raise e)
           | inr up =>
               match sim with
               | Waiting =>
                   ([Resolved StUplift up],
                    Suspend (AwaitUpliftSim norm fin sust dec (Got up) Waiting))
               | Got sv =>
                   prepend [Resolved StUplift up]
                     (after_uplift_sim norm fin sust dec up sv)
               end
           end
  | AwaitUpliftSim norm fin sust dec up Waiting, StSimulate =>
      Some match parse_response r with
           | inl e => ([Failed StSimulate e], Raise e)
           | inr sim =>
               match up with
               | Waiting =>
                   ([Resolved StSimulate sim],
                    Suspend (AwaitUpliftSim norm fin sust dec Waiting (Got sim)))
               | Got uv =>
                   prepend [Resolved StSimulate sim]
                     (after_uplift_sim norm fin sust dec uv sim)
               end
           end
  | AwaitReview norm fin sust dec up sim, StReview =>
      Some match parse_response r with
           | inl e => ([Failed StReview e], Raise e)
           | inr rev => after_review isRealTime rev
           end
  | _, _ => None
  end.

Definition alert_text : string :=
  "Analysis failed. Please check your API key.".

(** Lines 84-90: [catch] and [finally]. *)
Definition epilogue (isRealTime : bool) (o : outcome) : list action :=
  match o with
  | Suspend _ => []
  | Raise e =>
      [ConsoleError e]
        ++ (if isRealTime then [] else [Alert alert_text])
        ++ [SetLoading false; SetRealTimeUpdate false]
  | Return => [SetLoading false; SetRealTimeUpdate false]
  end.

Definition next_pc (o : outcome) : run_pc :=
  match o with Suspend pc => pc | _ => Finished end.

(** Lines 57-60: the synchronous start of [runAnalysis(isRealTime)], with
    [input] the value its closure captured. *)
Definition prologue (isRealTime : bool) (input : BorrowerInput)
  : list action * outcome :=
  let r := normalizeData input in
  prepend ((if isRealTime then [] else [SetLoading true])
             ++ [SetRealTimeUpdate true]
             ++ call StNormalize (ArgInput input) r)
    (await1 StNormalize r AwaitNormalize).

(** ** The component state *)

(** The seven artifacts, lines 38-44. *)
Record pipeline := {
  normalized : json;
  financialRisk : json;
  sustainabilityRisk : json;
  decision : json;
  uplift : json;
  simulations : json;
  review : json
}.

Definition get_artifact (st : stage) (p : pipeline) : json :=
  match st with
  | StNormalize => normalized p
  | StFinancial => financialRisk p
  | StSustainability => sustainabilityRisk p
  | StDecision => decision p
  | StUplift => uplift p
  | StSimulate => simulations p
  | StReview => review p
  end.

(** [setNormalized], [setFinancialRisk], ... [setReview]. *)
Definition set_artifact (st : stage) (v : json) (p : pipeline) : pipeline :=
  match st with
  | StNormalize =>
      {| normalized := v; financialRisk := financialRisk p;
         sustainabilityRisk := sustainabilityRisk p; decision := decision p;
         uplift := uplift p; simulations := simulations p; review := review p |}
  | StFinancial =>
      {| normalized := normalized p; financialRisk := v;
         sustainabilityRisk := sustainabilityRisk p; decision := decision p;
         uplift := uplift p; simulations := simulations p; review := review p |}
  | StSustainability =>
      {| normalized := normalized p; financialRisk := financialRisk p;
         sustainabilityRisk := v; decision := decision p;
         uplift := uplift p; simulations := simulations p; review := review p |}
  | StDecision =>
      {| normalized := normalized p; financialRisk := financialRisk p;
         sustainabilityRisk := sustainabilityRisk p; decision := v;
         uplift := uplift p; simulations := simulations p; review := review p |}
  | StUplift =>
      {| normalized := normalized p; financialRisk := financialRisk p;
         sustainabilityRisk := sustainabilityRisk p; decision := decision p;
         uplift := v; simulations := simulations p; review := review p |}
  | StSimulate =>
      {| normalized := normalized p; financialRisk := financialRisk p;
         sustainabilityRisk := sustainabilityRisk p; decision := decision p;
         uplift := uplift p; simulations := v; review := review p |}
  | StReview =>
      {| normalized := normalized p; financialRisk := financialRisk p;
         sustainabilityRisk := sustainabilityRisk p; decision := decision p;
         uplift := uplift p; simulations := simulations p; review := v |}
  end.

(** A pending [setTimeout]: the callback [() => runAnalysis(true)] holds
    the [runAnalysis] of the render that ran the effect, which holds the
    [input] of that render. *)
Record timer := {
  timer_id : nat;
  deadline : nat;
  captured : BorrowerInput
}.

(** An invocation of [runAnalysis]: its parameter, the [input] of its
    closure, the [await] it is at, and (for the statements below) when it
    started and what it has done so far. *)
Record run := {
  isRealTime : bool;
  snapshot : BorrowerInput;
  started_at : nat;
  pc : run_pc;
  history : list action
}.

Record app := {
  mounted : bool;
  step : Z;
  loading : bool;
  realTimeUpdate : bool;
  input : BorrowerInput;
  artifacts : pipeline;
  debounceTimer : option nat;      (* [debounceTimer.current]; [None] is null *)
  clock : nat;                     (* milliseconds *)
  timers : list timer;             (* the host's pending timeouts *)
  next_timer : nat;                (* the id the next [setTimeout] returns *)
  runs : list run;                 (* every invocation so far, oldest first *)
  console : list error;
  alerts : list string
}.

Definition with_ui (st : Z) (ld rt : bool) (s : app) : app :=
  {| mounted := mounted s; step := st; loading := ld; realTimeUpdate := rt;
     input := input s; artifacts := artifacts s;
     debounceTimer := debounceTimer s; clock := clock s; timers := timers s;
     next_timer := next_timer s; runs := runs s; console := console s;
     alerts := alerts s |}.

Definition with_artifacts (p : pipeline) (s : app) : app :=
  {| mounted := mounted s; step := step s; loading := loading s;
     realTimeUpdate := realTimeUpdate s; input := input s; artifacts := p;
     debounceTimer := debounceTimer s; clock := clock s; timers := timers s;
     next_timer := next_timer s; runs := runs s; console := console s;
     alerts := alerts s |}.

Definition with_output (c : list error) (a : list string) (s : app) : app :=
  {| mounted := mounted s; step := step s; loading := loading s;
     realTimeUpdate := realTimeUpdate s; input := input s;
     artifacts := artifacts s; debounceTimer := debounceTimer s;
     clock := clock s; timers := timers s; next_timer := next_timer s;
     runs := runs s; console := c; alerts := a |}.

Definition with_input (i : BorrowerInput) (s : app) : app :=
  {| mounted := mounted s; step := step s; loading := loading s;
     realTimeUpdate := realTimeUpdate s; input := i;
     artifacts := artifacts s; debounceTimer := debounceTimer s;
     clock := clock s; timers := timers s; next_timer := next_timer s;
     runs := runs s; console := console s; alerts := alerts s |}.

Definition with_timers (cur : option nat) (ts : list timer) (nxt : nat)
    (s : app) : app :=
  {| mounted := mounted s; step := step s; loading := loading s;
     realTimeUpdate := realTimeUpdate s; input := input s;
     artifacts := artifacts s; debounceTimer := cur; clock := clock s;
     timers := ts; next_timer := nxt; runs := runs s; console := console s;
     alerts := alerts s |}.

Definition with_clock (now : nat) (s : app) : app :=
  {| mounted := mounted s; step := step s; loading := loading s;
     realTimeUpdate := realTimeUpdate s; input := input s;
     artifacts := artifacts s; debounceTimer := debounceTimer s;
     clock := now; timers := timers s; next_timer := next_timer s;
     runs := runs s; console := console s; alerts := alerts s |}.

Definition with_runs (rs : list run) (s : app) : app :=
  {| mounted := mounted s; step := step s; loading := loading s;
     realTimeUpdate := realTimeUpdate s; input := input s;
     artifacts := artifacts s; debounceTimer := debounceTimer s;
     clock := clock s; timers := timers s; next_timer := next_timer s;
     runs := rs; console := console s; alerts := alerts s |}.

Definition with_mounted (m : bool) (s : app) : app :=
  {| mounted := m; step := step s; loading := loading s;
     realTimeUpdate := realTimeUpdate s; input := input s;
     artifacts := artifacts s; debounceTimer := debounceTimer s;
     clock := clock s; timers := timers s; next_timer := next_timer s;
     runs := runs s; console := console s; alerts := alerts s |}.

(** What one statement of [runAnalysis] does to the component. *)
Definition apply_action (s : app) (a : action) : app :=
  match a with
  | Publish st v => with_artifacts (set_artifact st v (artifacts s)) s
  | SetStep n => with_ui n (loading s) (realTimeUpdate s) s
  | SetLoading b => with_ui (step s) b (realTimeUpdate s) s
  | SetRealTimeUpdate b => with_ui (step s) (loading s) b s
  | ConsoleError e => with_output (console s ++ [e]) (alerts s) s
  | Alert msg => with_output (console s) (alerts s ++ [msg]) s
  | Invoke _ _ | Request _ _ | Resolved _ _ | Failed _ _ => s
  end.

Definition apply_actions (s : app) (l : list action) : app :=
  foldl apply_action s l.

(** Lines 20-46: the first render.  The effect runs once on mount and
    does nothing then ([debounceTimer.current] and [normalized] are
    null), so [init] is also the state after mounting. *)
Definition initial_input : BorrowerInput :=
  <["businessType" := VStr "SME"]>
  (<["industry" := VStr "Manufacturing"]>
  (<["revenue" := VNum (Some 5000000)]>
  (<["cashFlowStability" := VNum (Some 75)]>
  (<["debtToIncomeRatio" := VNum (Some 35)]>
  (<["creditHistory" := VStr "7 years clean"]>
  (<["energySource" := VStr "Grid Mix (Coal heavy)"]>
  (<["carbonIntensity" := VNum (Some 80)]>
  (<["laborCompliance" := VNum (Some 90)]>
  (<["regulatoryIssues" := VStr "None"]> ∅))))))))).

Definition initial_pipeline : pipeline :=
  {| normalized := JNull; financialRisk := JNull;
     sustainabilityRisk := JNull; decision := JNull; uplift := JNull;
     simulations := JArr []; review := JNull |}.

Definition init : app :=
  {| mounted := true; step := AppStep.Input; loading := false;
     realTimeUpdate := false; input := initial_input;
     artifacts := initial_pipeline; debounceTimer := None; clock := 0%nat;
     timers := []; next_timer := 1%nat; runs := []; console := [];
     alerts := [] |}.

(** ** Event handlers *)

(** Lines 48-54. *)
Definition handleInputChange `{Host} (name value type : string)
    (prev : BorrowerInput) : BorrowerInput :=
  <[name := if String.eqb type "range" || String.eqb type "number"
            then VNum (Number value) else VStr value]> prev.

(** Line 109 and line 110. *)
Definition nextStep (prev : Z) : Z := Z.min (prev + 1) AppStep.Review.
Definition prevStep (prev : Z) : Z := Z.max (prev - 1) AppStep.Input.

(** Line 107: the dependency array of the debounce effect. *)
Definition effect_deps (i : BorrowerInput) : list (option jsval) :=
  [i !! "revenue"; i !! "debtToIncomeRatio"; i !! "carbonIntensity";
   i !! "laborCompliance"; i !! "cashFlowStability"].

Definition clearTimeout (id : nat) (ts : list timer) : list timer :=
  filter (λ t, timer_id t ≠ id) ts.

(** [if (debounceTimer.current) clearTimeout(debounceTimer.current)],
    lines 95 and 105; the id 0 would be falsy. *)
Definition clear_pending (s : app) : app :=
  match debounceTimer s with
  | Some (S n) =>
      with_timers (debounceTimer s) (clearTimeout (S n) (timers s))
        (next_timer s) s
  | _ => s
  end.

(** Lines 95-102: the body of the effect, reading the [normalized] and
    the [runAnalysis] (hence the [input]) of the render that runs it. *)
Definition debounce_effect (s : app) : app :=
  let s1 := clear_pending s in
  if truthy (normalized (artifacts s1)) then
    with_timers (Some (next_timer s1))
      (timers s1 ++ [{| timer_id := next_timer s1;
                        deadline := (clock s1 + 800)%nat;
                        captured := input s1 |}])
      (S (next_timer s1)) s1
  else s1.

(** [setInput] and the render that follows: when a watched field
    changed, React runs the cleanup of the previous effect and then the
    effect. *)
Definition setInput (i : BorrowerInput) (s : app) : app :=
  let s1 := with_input i s in
  if decide (effect_deps i = effect_deps (input s)) then s1
  else debounce_effect (clear_pending s1).

(** What a resumed run executes before it suspends or ends: the
    statements of the [try] block, then [catch] and [finally] if it left
    the block. *)
Definition executed (isRealTime : bool) (r : list action * outcome)
  : list action :=
  r.1 ++ epilogue isRealTime r.2.

Definition run_after (ru : run) (r : list action * outcome) : run :=
  {| isRealTime := isRealTime ru; snapshot := snapshot ru;
     started_at := started_at ru; pc := next_pc r.2;
     history := history ru ++ executed (isRealTime ru) r |}.

(** A call [runAnalysis(isRealTime)] through a closure that captured
    [i], at time [now]: the run executes up to its first [await]. *)
Definition new_run (isRealTime : bool) (i : BorrowerInput) (now : nat) : run :=
  run_after {| isRealTime := isRealTime; snapshot := i; started_at := now;
               pc := Finished; history := [] |}
    (prologue isRealTime i).

Definition runAnalysis (isRealTime : bool) (i : BorrowerInput) (now : nat)
    (s : app) : app :=
  let s1 := apply_actions s (executed isRealTime (prologue isRealTime i)) in
  with_runs (runs s1 ++ [new_run isRealTime i now]) s1.

(** The run resumed by the settlement of the promise of [st]. *)
Definition advance `{Host} (ru : run) (st : stage) (r : response) : run :=
  match resume (isRealTime ru) (pc ru) st r with
  | None => ru
  | Some res => run_after ru res
  end.

(** The promise of the call of [st] made by run [rid] settles. *)
Definition settle `{Host} (rid : nat) (st : stage) (r : response)
    (s : app) : app :=
  match runs s !! rid with
  | None => s
  | Some ru =>
      match resume (isRealTime ru) (pc ru) st r with
      | None => s
      | Some res =>
          let s1 := apply_actions s (executed (isRealTime ru) res) in
          with_runs (<[rid := run_after ru res]> (runs s1)) s1
      end
  end.

(** The host fires the timeouts that are due, oldest first (all have the
    same delay), each at its deadline. *)
Definition is_due (now : nat) (t : timer) : bool := (deadline t <=? now)%nat.

Definition fire (s : app) (t : timer) : app :=
  runAnalysis true (captured t) (deadline t) s.

Definition elapse (ms : nat) (s : app) : app :=
  let now := (clock s + ms)%nat in
  let due := List.filter (is_due now) (timers s) in
  let rest := List.filter (λ t, negb (is_due now t)) (timers s) in
  foldl fire
    (with_clock now (with_timers (debounceTimer s) rest (next_timer s) s))
    due.

(** One task of the event loop. *)
Inductive event :=
| Change (name value type : string)   (* [onChange] of a slider, select, textarea *)
| PickBusinessType (type : string)    (* line 213 *)
| ClickProceed                        (* line 235 *)
| ClickNext                           (* line 629 *)
| ClickBack                           (* line 623 *)
| Elapse (ms : nat)
| Settle (rid : nat) (st : stage) (r : response)
| Unmount.

(** What the rendered page lets the user do: the form and the Proceed
    button belong to the Input step (lines 114-250); Proceed is disabled
    while [loading]; Back and Next are rendered when [step > 1] and Next
    is disabled at Review (lines 620-630). *)
Definition enabled (s : app) (e : event) : bool :=
  match e with
  | Change _ _ _ | PickBusinessType _ =>
      mounted s && Z.eqb (step s) AppStep.Input
  | ClickProceed =>
      mounted s && Z.eqb (step s) AppStep.Input && negb (loading s)
  | ClickNext =>
      mounted s && Z.ltb 1 (step s) && negb (Z.eqb (step s) AppStep.Review)
  | ClickBack => mounted s && Z.ltb 1 (step s)
  | Unmount => mounted s
  | Elapse _ | Settle _ _ _ => true
  end.

Definition handle `{Host} (e : event) (s : app) : app :=
  match e with
  | Change name value type =>
      setInput (handleInputChange name value type (input s)) s
  | PickBusinessType type =>
      setInput (<["businessType" := VStr type]> (input s)) s
  | ClickProceed => runAnalysis false (input s) (clock s) s
  | ClickNext => with_ui (nextStep (step s)) (loading s) (realTimeUpdate s) s
  | ClickBack => with_ui (prevStep (step s)) (loading s) (realTimeUpdate s) s
  | Elapse ms => elapse ms s
  | Settle rid st r => settle rid st r s
  | Unmount => with_mounted false (clear_pending s)
  end.

Definition dispatch `{Host} (s : app) (e : event) : app :=
  if enabled s e then handle e s else s.

Definition exec `{Host} (s : app) (evs : list event) : app :=
  foldl dispatch s evs.

Definition reachable `{Host} (s : app) : Prop :=
  ∃ evs, s = exec init evs.

(** ** A reference host

    A host for the closed examples below: [JSON.parse] and [Number] on the
    fragment the examples use: objects, arrays, strings without escapes,
    integers, [true], [false] and [null].  On a text it accepts, and on a
    text that is not JSON at all, it answers as the runtime does. *)
Module ReferenceHost.

Definition is_ws (c : ascii) : bool :=
  match c with
  | " "%char | "009"%char | "010"%char | "013"%char => true
  | _ => false
  end.

Fixpoint skip_ws (cs : list ascii) : list ascii :=
  match cs with
  | c :: rest => if is_ws c then skip_ws rest else cs
  | [] => []
  end.

Definition digit (c : ascii) : option Z :=
  let n := Z.of_nat (nat_of_ascii c) in
  if (48 <=? n) && (n <=? 57) then Some (n - 48) else None.

(** The longest run of digits, as a number, with how many there were. *)
Fixpoint digits (acc : Z) (count : nat) (cs : list ascii)
  : Z * nat * list ascii :=
  match cs with
  | c :: rest =>
      match digit c with
      | Some d => digits (10 * acc + d) (S count) rest
      | None => (acc, count, cs)
      end
  | [] => (acc, count, [])
  end.

Definition ends_number (cs : list ascii) : bool :=
  match cs with
  | "."%char :: _ | "e"%char :: _ | "E"%char :: _ => false
  | _ => true
  end.

Definition integer (cs : list ascii) : option (Z * list ascii) :=
  let '(neg, body) :=
    match cs with "-"%char :: rest => (true, rest) | _ => (false, cs) end in
  match body, digits 0 0 body with
  | "0"%char :: _, (_, S (S _), _) => None
  | _, (_, O, _) => None
  | _, (n, _, rest) =>
      if ends_number rest then Some (if neg then - n else n, rest) else None
  end.

Definition dquote : ascii := ascii_of_nat 34.
Definition backslash : ascii := ascii_of_nat 92.

Fixpoint until_quote (acc : list ascii) (cs : list ascii)
  : option (string * list ascii) :=
  match cs with
  | [] => None
  | c :: rest =>
      if Ascii.eqb c dquote then Some (String.string_of_list_ascii acc, rest)
      else if Ascii.eqb c backslash || (nat_of_ascii c <? 32)%nat then None
      else until_quote (acc ++ [c]) rest
  end.

Fixpoint expect (word : list ascii) (cs : list ascii)
  : option (list ascii) :=
  match word, cs with
  | [], _ => Some cs
  | w :: word', c :: rest => if Ascii.eqb w c then expect word' rest else None
  | _ :: _, [] => None
  end.

(** A repeated key keeps its place and takes the later value. *)
Fixpoint set_member (k : string) (v : json) (fields : list (string * json))
  : list (string * json) :=
  match fields with
  | [] => [(k, v)]
  | (k', v') :: rest =>
      if String.eqb k' k then (k', v) :: rest
      else (k', v') :: set_member k v rest
  end.

Fixpoint parse_value (fuel : nat) (cs : list ascii) : option (json * list ascii) :=
  match fuel with
  | O => None
  | S fuel' =>
      match skip_ws cs with
      | [] => None
      | c :: rest =>
          if Ascii.eqb c dquote then
            '(s, r) ← until_quote [] rest; Some (JStr s, r)
          else
            match c with
            | "n"%char =>
                r ← expect (String.list_ascii_of_string "ull") rest;
                Some (JNull, r)
            | "t"%char =>
                r ← expect (String.list_ascii_of_string "rue") rest;
                Some (JBool true, r)
            | "f"%char =>
                r ← expect (String.list_ascii_of_string "alse") rest;
                Some (JBool false, r)
            | "["%char =>
                match skip_ws rest with
                | "]"%char :: r => Some (JArr [], r)
                | _ => parse_items fuel' [] rest
                end
            | "{"%char =>
                match skip_ws rest with
                | "}"%char :: r => Some (JObj [], r)
                | _ => parse_members fuel' [] rest
                end
            | _ => '(n, r) ← integer (c :: rest); Some (JNum n, r)
            end
      end
  end
with parse_items (fuel : nat) (acc : list json) (cs : list ascii)
  : option (json * list ascii) :=
  match fuel with
  | O => None
  | S fuel' =>
      '(v, rest) ← parse_value fuel' cs;
      match skip_ws rest with
      | ","%char :: r => parse_items fuel' (acc ++ [v]) r
      | "]"%char :: r => Some (JArr (acc ++ [v]), r)
      | _ => None
      end
  end
with parse_members (fuel : nat) (acc : list (string * json)) (cs : list ascii)
  : option (json * list ascii) :=
  match fuel with
  | O => None
  | S fuel' =>
      match skip_ws cs with
      | c :: rest =>
          if Ascii.eqb c dquote then
            '(k, rest1) ← until_quote [] rest;
            match skip_ws rest1 with
            | ":"%char :: rest2 =>
                '(v, rest3) ← parse_value fuel' rest2;
                match skip_ws rest3 with
                | ","%char :: r => parse_members fuel' (set_member k v acc) r
                | "}"%char :: r => Some (JObj (set_member k v acc), r)
                | _ => None
                end
            | _ => None
            end
          else None
      | [] => None
      end
  end.

(** The examples write a JSON text with ['] for the double quote. *)
Definition quoted (text : string) : string :=
  String.string_of_list_ascii
    ((λ c, if Ascii.eqb c "'"%char then dquote else c)
       <$> String.list_ascii_of_string text).

Definition parse (text : string) : option json :=
  let cs := String.list_ascii_of_string text in
  '(v, rest) ← parse_value (2 * length cs + 2) cs;
  match skip_ws rest with [] => Some v | _ => None end.

Definition number (text : string) : option Z :=
  match skip_ws (String.list_ascii_of_string text) with
  | [] => Some 0
  | cs =>
      '(n, rest) ← integer cs;
      match skip_ws rest with [] => Some n | _ => None end
  end.

#[export] Instance host : Host := {| JSON_parse := parse; Number := number |}.

End ReferenceHost.

(** ** Reading a history *)

Definition failures (l : list action) : list (stage * error) :=
  omap (λ a, match a with Failed st e => Some (st, e) | _ => None end) l.

Definition invoked (l : list action) : list stage :=
  omap (λ a, match a with Invoke st _ => Some st | _ => None end) l.

Definition resolved (l : list action) : list (stage * json) :=
  omap (λ a, match a with Resolved st v => Some (st, v) | _ => None end) l.

Definition published (l : list action) : list (stage * json) :=
  omap (λ a, match a with Publish st v => Some (st, v) | _ => None end) l.

Definition logged (l : list action) : list error :=
  omap (λ a, match a with ConsoleError e => Some e | _ => None end) l.

Definition alerted (l : list action) : list string :=
  omap (λ a, match a with Alert m => Some m | _ => None end) l.

Definition step_changes (l : list action) : list Z :=
  omap (λ a, match a with SetStep n => Some n | _ => None end) l.

(** What a run hands to the adapters and the adapters to the oracle. *)
Inductive fed :=
| FedAdapter (st : stage) (a : args)
| FedOracle (st : stage) (p : prompt).

Definition feeds (l : list action) : list fed :=
  omap (λ a, match a with
             | Invoke st x => Some (FedAdapter st x)
             | Request st p => Some (FedOracle st p)
             | _ => None
             end) l.

(** The stages [runAnalysis] awaits before it calls the adapter of [st]. *)
Definition earlier (st : stage) : list stage :=
  match st with
  | StNormalize => []
  | StFinancial | StSustainability => [StNormalize]
  | StDecision => [StNormalize; StFinancial; StSustainability]
  | StUplift | StSimulate =>
      [StNormalize; StFinancial; StSustainability; StDecision]
  | StReview =>
      [StNormalize; StFinancial; StSustainability; StDecision;
       StUplift; StSimulate]
  end.

(** The dependency order: the stages that must have resolved before the
    adapter of [st] may be called. *)
Definition requires (st : stage) : list stage :=
  match st with
  | StNormalize => []
  | StFinancial | StSustainability => [StNormalize]
  | StDecision | StUplift | StSimulate => [StFinancial; StSustainability]
  | StReview =>
      [StNormalize; StFinancial; StSustainability; StDecision;
       StUplift; StSimulate]
  end.

(** [all_steps P prefix new]: every action of [new] satisfies [P] with
    respect to what came before it. *)
Fixpoint all_steps (P : list action → action → Prop)
    (prefix new : list action) : Prop :=
  match new with
  | [] => True
  | a :: rest => P prefix a ∧ all_steps P (prefix ++ [a]) rest
  end.

Definition joins (a : action) : Prop :=
  match a with Resolved _ _ | Publish _ _ => True | _ => False end.

(** The discipline of a history, action by action. *)
Definition step_ok (prefix : list action) (a : action) : Prop :=
  match a with
  | Invoke st _ =>
      failures prefix = [] ∧ (st ∉ invoked prefix)
      ∧ Forall
          (λ d, ∃ v, ((d, v) ∈ published prefix) ∧ ((d, v) ∈ resolved prefix))
          (earlier st)
  | Request st _ => failures prefix = [] ∧ st ∈ invoked prefix
  | Resolved st _ => failures prefix = [] ∧ st ∈ invoked prefix
  | Publish st v =>
      failures prefix = [] ∧ (st, v) ∈ resolved prefix
      ∧ ∃ x, last prefix = Some x ∧ joins x
  | SetStep n => failures prefix = [] ∧ n = AppStep.Normalization
  | Failed _ _ => failures prefix = []
  | SetLoading _ | SetRealTimeUpdate _ | ConsoleError _ | Alert _ => True
  end.

(** The adapters a run suspended at [p] has called so far. *)
Definition invoked_at (p : run_pc) : list stage :=
  match p with
  | AwaitNormalize => [StNormalize]
  | AwaitRisk _ _ _ => [StNormalize; StFinancial; StSustainability]
  | AwaitDecision _ _ _ =>
      [StNormalize; StFinancial; StSustainability; StDecision]
  | AwaitUpliftSim _ _ _ _ _ _ =>
      [StNormalize; StFinancial; StSustainability; StDecision;
       StUplift; StSimulate]
  | AwaitReview _ _ _ _ _ _ | Finished =>
      [StNormalize; StFinancial; StSustainability; StDecision;
       StUplift; StSimulate; StReview]
  end.

(** The locals of a run suspended at [p] that it has passed to a setter. *)
Definition published_at (p : run_pc) : list (stage * json) :=
  match p with
  | AwaitNormalize | Finished => []
  | AwaitRisk norm _ _ => [(StNormalize, norm)]
  | AwaitDecision norm fin sust =>
      [(StNormalize, norm); (StFinancial, fin); (StSustainability, sust)]
  | AwaitUpliftSim norm fin sust dec _ _ =>
      [(StNormalize, norm); (StFinancial, fin); (StSustainability, sust);
       (StDecision, dec)]
  | AwaitReview norm fin sust dec up sim =>
      [(StNormalize, norm); (StFinancial, fin); (StSustainability, sust);
       (StDecision, dec); (StUplift, up); (StSimulate, sim)]
  end.

Definition slot_value (st : stage) (sl : slot) : list (stage * json) :=
  match sl with Waiting => [] | Got v => [(st, v)] end.

(** The members of the pending [Promise.all] that are fulfilled. *)
Definition joined_at (p : run_pc) : list (stage * json) :=
  match p with
  | AwaitRisk _ fin sust =>
      slot_value StFinancial fin ++ slot_value StSustainability sust
  | AwaitUpliftSim _ _ _ _ up sim =>
      slot_value StUplift up ++ slot_value StSimulate sim
  | _ => []
  end.

(** No step change, no console output, no alert. *)
Definition quiet (l : list action) : Prop :=
  step_changes l = [] ∧ logged l = [] ∧ alerted l = [].

(** What the history of a run suspended at [p] contains. *)
Definition pc_facts (isRealTime : bool) (p : run_pc) (l : list action)
  : Prop :=
  match p with
  | Finished =>
      failures l = []
      ∨ (∃ l1 st e, l = l1 ++ Failed st e :: epilogue isRealTime (Raise e)
                    ∧ failures l1 = [] ∧ quiet l1)
  | _ =>
      failures l = [] ∧ invoked l = invoked_at p
      ∧ published l = published_at p
      ∧ published_at p ++ joined_at p ⊆ resolved l
      ∧ quiet l
  end.

Definition run_ok (ru : run) : Prop :=
  all_steps step_ok [] (history ru)
  ∧ pc_facts (isRealTime ru) (pc ru) (history ru)
  ∧ NoDup (invoked (history ru)).


(** The last value a list of actions passes to the setter of [st]. *)
Definition last_published (st : stage) (l : list action) : option json :=
  last (omap (λ a, match a with
                   | Publish st' v => if decide (st' = st) then Some v else None
                   | _ => None
                   end) l).

(** ** Scenarios for the closed examples *)

Import ReferenceHost.

Definition ok_normalize : response :=
  Responded (quoted "{'financial': {'revenueScore': 62, 'cashFlowStability': 75, 'debtRatio': 35, 'creditScore': 70}, 'sustainability': {'energyCleanliness': 20, 'carbonEfficiency': 25, 'laborEthics': 90, 'regulatoryRisk': 10}}").
Definition ok_financial : response :=
  Responded (quoted "{'score': 68, 'band': 'Medium', 'breakdown': [], 'summary': 'stable'}").
Definition ok_sustainability : response :=
  Responded (quoted "{'score': 41, 'sdgs': [], 'impactDescription': 'coal heavy'}").
Definition ok_decision : response :=
  Responded (quoted "{'greenCreditScore': 55, 'status': 'Conditional', 'justification': 'mixed', 'aprAdjustment': '+0.5%'}").
Definition ok_uplift : response :=
  Responded (quoted "{'currentScore': 41, 'projectedScore': 60, 'recommendations': []}").
Definition ok_simulate : response :=
  Responded (quoted "[{'scenario': 'Net Zero 2050', 'financialImpact': -5, 'sustainabilityImpact': 10, 'totalScore': 60}]").
Definition ok_review : response :=
  Responded (quoted "{'keyDrivers': ['debt'], 'ethicalConsiderations': 'none', 'suggestedNextSteps': 'audit', 'riskHighlights': []}").

(** A first interactive run that succeeds, run 0. *)
Definition first_run : list event :=
  [ClickProceed;
   Settle 0 StNormalize ok_normalize;
   Settle 0 StSustainability ok_sustainability;
   Settle 0 StFinancial ok_financial;
   Settle 0 StDecision ok_decision;
   Settle 0 StUplift ok_uplift;
   Settle 0 StSimulate ok_simulate;
   Settle 0 StReview ok_review].

Definition run_at (s : app) (rid : nat) : run :=
  default (new_run false ∅ 0) (runs s !! rid).

(** The first run loses its sustainability call after its financial call
    has succeeded. *)
Definition sibling_fails : list event :=
  [ClickProceed;
   Settle 0 StNormalize ok_normalize;
   Settle 0 StFinancial ok_financial;
   Settle 0 StSustainability Rejected].

Definition stale_normalize : response :=
  Responded (quoted "{'financial': {'revenueScore': 62, 'cashFlowStability': 75, 'debtRatio': 35, 'creditScore': 70}, 'sustainability': {'energyCleanliness': 20, 'carbonEfficiency': 80, 'laborEthics': 90, 'regulatoryRisk': 10}}").



Definition payload (r : response) : json :=
  match parse_response r with inr v => v | inl _ => JNull end.

(** A decision payload without the [status] field. *)
Definition decision_without_status : response :=
  Responded (quoted "{'greenCreditScore': 55, 'justification': 'mixed', 'aprAdjustment': '+0.5%'}").

Definition status_missing : list event :=
  [ClickProceed;
   Settle 0 StNormalize ok_normalize;
   Settle 0 StFinancial ok_financial;
   Settle 0 StSustainability ok_sustainability;
   Settle 0 StDecision decision_without_status].

(** After a first run, a slider edit starts background run 1, whose
    normalize call is about to settle. *)
Definition background_run_begins : list event :=
  first_run ++ [ClickBack; Change "carbonIntensity" "20" "range"; Elapse 800].

(** No run has passed a result of normalize to [setNormalized] yet. *)
Definition never_normalized (s : app) : Prop :=
  ∀ ru, ru ∈ runs s → StNormalize ∉ (published (history ru)).*1.

(** The first run is still in flight when the carbon slider moves. *)
Definition early_edit : list event :=
  [ClickProceed;
   Settle 0 StNormalize ok_normalize;
   Change "carbonIntensity" "20" "range";
   Elapse 800].

(** The invariant behind the gate of the debounce effect. *)
Definition first_run_pending (s : app) : Prop :=
  never_normalized s →
  normalized (artifacts s) = JNull ∧ timers s = []
  ∧ Forall (λ ru, isRealTime ru = false) (runs s).

(** ** The debounce timer *)

(** The pending timeouts of the component: at most one, and it is the
    one [debounceTimer.current] names. *)
Definition timers_ok (s : app) : Prop :=
  (0 < next_timer s)%nat
  ∧ (mounted s = false → timers s = [])
  ∧ (timers s = []
     ∨ ∃ t, timers s = [t] ∧ debounceTimer s = Some (timer_id t)
            ∧ (0 < timer_id t < next_timer s)%nat).

(** A burst of edits of the form: each is followed by a pause. *)
Fixpoint burst (edits : list (string * string * string * nat)) : list event :=
  match edits with
  | [] => []
  | (name, val, ty, pause) :: rest =>
      Change name val ty :: Elapse pause :: burst rest
  end.

(** Every edit of the burst changes a watched field, and every pause is
    shorter than the debounce delay. *)
Fixpoint rapid `{Host} (i : BorrowerInput)
    (edits : list (string * string * string * nat)) : Prop :=
  match edits with
  | [] => True
  | (name, val, ty, pause) :: rest =>
      effect_deps (handleInputChange name val ty i) ≠ effect_deps i
      ∧ (pause < 800)%nat
      ∧ rapid (handleInputChange name val ty i) rest
  end.

(** The input after the edits of a burst. *)
Fixpoint edited `{Host} (i : BorrowerInput)
    (edits : list (string * string * string * nat)) : BorrowerInput :=
  match edits with
  | [] => i
  | (name, val, ty, _) :: rest => edited (handleInputChange name val ty i) rest
  end.

Definition slider_burst : list (string * string * string * nat) :=
  [("carbonIntensity", "50", "range", 300%nat);
   ("laborCompliance", "95", "range", 799%nat);
   ("carbonIntensity", "40", "range", 10%nat)].

(** The state after a first run, back on the form. *)
Definition back_on_form : app := exec init (first_run ++ [ClickBack]).

(** ** Runs and edits *)

(** The settlements a trace delivers to run [rid]. *)
Definition replies (rid : nat) (evs : list event) : list (stage * response) :=
  omap (λ e, match e with
             | Settle rid' st r =>
                 if decide (rid' = rid) then Some (st, r) else None
             | _ => None
             end) evs.

(** A run resumed by a sequence of settlements. *)
Definition replay `{Host} (ru : run) (rs : list (stage * response)) : run :=
  foldl (λ ru sr, advance ru sr.1 sr.2) ru rs.

(** Run 0 alone, and run 0 with the form edited while it executes. *)
Definition undisturbed : list event :=
  [Settle 0 StNormalize ok_normalize;
   Settle 0 StFinancial ok_financial;
   Settle 0 StSustainability ok_sustainability].

Definition disturbed : list event :=
  [Change "carbonIntensity" "5" "range";
   Settle 0 StNormalize ok_normalize;
   Change "energySource" "Solar" "textarea";
   Elapse 800;
   Settle 0 StFinancial ok_financial;
   PickBusinessType "Startup";
   Settle 1 StNormalize stale_normalize;
   Settle 0 StSustainability ok_sustainability].

(** ** More readings of a history *)

Definition requested (l : list action) : list stage :=
  omap (λ a, match a with Request st _ => Some st | _ => None end) l.

Definition loading_sets (l : list action) : list bool :=
  omap (λ a, match a with SetLoading b => Some b | _ => None end) l.

Definition realTime_sets (l : list action) : list bool :=
  omap (λ a, match a with SetRealTimeUpdate b => Some b | _ => None end) l.

(** The order in which [runAnalysis] goes through the stages. *)
Definition stage_order : list stage :=
  [StNormalize; StFinancial; StSustainability; StDecision;
   StUplift; StSimulate; StReview].

(** The locals of a run suspended at [p] that an adapter has read a
    property of. *)
Definition dereferenced_at (p : run_pc) : list json :=
  match p with
  | AwaitNormalize | Finished => []
  | AwaitRisk norm _ _
  | AwaitDecision norm _ _
  | AwaitUpliftSim norm _ _ _ _ _
  | AwaitReview norm _ _ _ _ _ => [norm]
  end.

(** The locals of a run suspended at [p] whose score an adapter has
    printed. *)
Definition scored_at (p : run_pc) : list json :=
  match p with
  | AwaitNormalize | AwaitRisk _ _ _ | Finished => []
  | AwaitDecision _ fin sust
  | AwaitUpliftSim _ fin sust _ _ _
  | AwaitReview _ fin sust _ _ _ => [fin; sust]
  end.

(** The life of a run, as its history shows it. *)
Definition pc_life (isRealTime : bool) (p : run_pc) (l : list action) : Prop :=
  match p with
  | Finished =>
      requested l `prefix_of` stage_order
      ∧ invoked l `prefix_of` stage_order
      ∧ (published l).*1 `prefix_of` stage_order
      ∧ loading_sets l = (if isRealTime then [] else [true]) ++ [false]
      ∧ realTime_sets l = [true; false]
      ∧ (∀ st, (st, TypeError) ∈ failures l →
               st = StFinancial ∨ st = StDecision)
      ∧ (∀ st e, (st, e) ∈ failures l →
                 st ∈ invoked l ∧ (st ∈ requested l ↔ e ≠ TypeError))
  | _ =>
      requested l = invoked_at p
      ∧ invoked l = invoked_at p
      ∧ published l = published_at p
      ∧ loading_sets l = (if isRealTime then [] else [true])
      ∧ realTime_sets l = [true]
      ∧ failures l = []
      ∧ Forall (λ v, is_null v = false) (dereferenced_at p)
      ∧ Forall (λ v, score_throws v = false) (scored_at p)
  end.

Definition run_life (ru : run) : Prop :=
  pc_life (isRealTime ru) (pc ru) (history ru).

Definition is_finished (p : run_pc) : bool :=
  match p with Finished => true | _ => false end.

(** ** More on the component *)

(** No invocation of [runAnalysis] is suspended at an [await]. *)
Definition idle (s : app) : Prop :=
  Forall (λ ru, pc ru = Finished) (runs s).

(** An interactive run that reached its last statement. *)
Definition completed_interactively (ru : run) : Prop :=
  isRealTime ru = false ∧ SetStep AppStep.Normalization ∈ history ru.

(** The names of the fields the debounce effect watches. *)
Definition watched : list string :=
  ["revenue"; "debtToIncomeRatio"; "carbonIntensity"; "laborCompliance";
   "cashFlowStability"].

(** A pending timeout is in the future, at most 800 ms away, and holds
    the current values of the watched fields. *)
Definition timers_current (s : app) : Prop :=
  Forall (λ t, effect_deps (captured t) = effect_deps (input s)
               ∧ (clock s < deadline t ≤ clock s + 800)%nat)
    (timers s).

(** What run [ru] executes when the promise of [st] settles with [r]. *)
Definition did `{Host} (ru : run) (st : stage) (r : response) : list action :=
  match resume (isRealTime ru) (pc ru) st r with
  | None => []
  | Some res => executed (isRealTime ru) res
  end.

(** What a run executes over a sequence of settlements. *)
Fixpoint trail `{Host} (ru : run) (rs : list (stage * response))
  : list action :=
  match rs with
  | [] => []
  | sr :: rest => did ru sr.1 sr.2 ++ trail (advance ru sr.1 sr.2) rest
  end.

(** The settlements of a run whose seven calls all succeed; the members
    of each [Promise.all] may settle in either order. *)
Definition success_replies (risk_swapped plan_swapped : bool)
    (rN rF rS rD rU rM rR : response) : list (stage * response) :=
  [(StNormalize, rN)]
    ++ (if risk_swapped then [(StSustainability, rS); (StFinancial, rF)]
        else [(StFinancial, rF); (StSustainability, rS)])
    ++ [(StDecision, rD)]
    ++ (if plan_swapped then [(StSimulate, rM); (StUplift, rU)]
        else [(StUplift, rU); (StSimulate, rM)])
    ++ [(StReview, rR)].

(** [trail] and the [await] reached, computed on the mode and the
    program counter alone. *)
Fixpoint trail_pc `{Host} (b : bool) (p : run_pc)
    (rs : list (stage * response)) : list action * run_pc :=
  match rs with
  | [] => ([], p)
  | sr :: rest =>
      match resume b p sr.1 sr.2 with
      | None => trail_pc b p rest
      | Some res =>
          let tp := trail_pc b (next_pc res.2) rest in
          (executed b res ++ tp.1, tp.2)
      end
  end.

(** ** Scenarios for the further examples *)

(** The normalize call of the first run answers [null]. *)
Definition null_normalize : list event :=
  [ClickProceed; Settle 0 StNormalize (Responded "null")].

(** Back on the form after a first run, the carbon slider has just moved
    and the debounce timer is pending. *)
Definition armed : app :=
  exec back_on_form [Change "carbonIntensity" "20" "range"].

(** The first run is in flight when a background run, started by a
    slider edit, loses its normalize call. *)
Definition background_fails_first : list event :=
  early_edit ++ [Settle 1 StNormalize Rejected].

(** ** The earlier [App] component ([src/unnamed/part_000], lines 18-85)

    The same wizard without the sliders and without the debounce effect:
    every field is a text control, [runAnalysis] takes no parameter, sets
    the step right after normalize, and always alerts on failure.  The
    adapters, the artifacts and the record [app] are shared; the fields
    [realTimeUpdate], [debounceTimer] and [timers] are not used. *)
Module Legacy.

(** Lines 23-34. *)
Definition initial_input : BorrowerInput :=
  <["businessType" := VStr "SME"]>
  (<["industry" := VStr "Manufacturing"]>
  (<["revenue" := VStr "$5,000,000"]>
  (<["cashFlowStability" := VStr "Moderate volatility"]>
  (<["debtToIncomeRatio" := VStr "35%"]>
  (<["creditHistory" := VStr "7 years clean"]>
  (<["energySource" := VStr "Grid Mix (Coal heavy)"]>
  (<["carbonIntensity" := VStr "High"]>
  (<["laborCompliance" := VStr "Good"]>
  (<["regulatoryIssues" := VStr "None"]> ∅))))))))).

Definition init : app :=
  {| mounted := true; step := AppStep.Input; loading := false;
     realTimeUpdate := false; input := initial_input;
     artifacts := initial_pipeline; debounceTimer := None; clock := 0%nat;
     timers := []; next_timer := 1%nat; runs := []; console := [];
     alerts := [] |}.

(** Lines 44-46. *)
Definition handleInputChange (name value : string) (prev : BorrowerInput)
  : BorrowerInput :=
  <[name := VStr value]> prev.

(** Lines 53-59. *)
Definition after_normalize (norm : json) : list action * outcome :=
  let r1 := assessFinancialRisk norm in
  let r2 := assessSustainabilityRisk norm in
  prepend ([Resolved StNormalize norm; Publish StNormalize norm;
            SetStep AppStep.Normalization]
             ++ call StFinancial (ArgJson [norm]) r1
             ++ call StSustainability (ArgJson [norm]) r2)
    (await2 StFinancial r1 StSustainability r2
       (AwaitRisk norm Waiting Waiting)).

(** Lines 73-74. *)
Definition after_review (rev : json) : list action * outcome :=
  ([Resolved StReview rev; Publish StReview rev], Return).

(** The body of the [try] block, lines 50-75, resumed when the promise
    of the call of [st] settles with [r]. *)
Definition resume `{Host} (pc : run_pc) (st : stage) (r : response)
  : option (list action * outcome) :=
  match pc, st with
  | AwaitNormalize, StNormalize =>
      Some match parse_response r with
           | inl e => ([Failed StNormalize e], Raise e)
           | inr norm => after_normalize norm
           end
  | AwaitRisk norm Waiting sust, StFinancial =>
      Some match parse_response r with
           | inl e => ([Failed StFinancial e], Raise e)
           | inr fin =>
               match sust with
               | Waiting =>
                   ([Resolved StFinancial fin],
                    Suspend (AwaitRisk norm (Got fin) Waiting))
               | Got sv =>
                   prepend [Resolved StFinancial fin] (after_risk norm fin sv)
               end
           end
  | AwaitRisk norm fin Waiting, StSustainability =>
      Some match parse_response r with
           | inl e => ([Failed StSustainability e], Raise e)
           | inr sust =>
               match fin with
               | Waiting =>
                   ([Resolved StSustainability sust],
                    Suspend (AwaitRisk norm Waiting (Got sust)))
               | Got fv =>
                   prepend [Resolved StSustainability sust]
                     (after_risk norm fv sust)
               end
           end
  | AwaitDecision norm fin sust, StDecision =>
      Some match parse_response r with
           | inl e => ([Failed StDecision e], Raise e)
           | inr dec => after_decision norm fin sust dec
           end
  | AwaitUpliftSim norm fin sust dec Waiting sim, StUplift =>
      Some match parse_response r with
           | inl e => ([Failed StUplift e], Raise e)
           | inr up =>
               match sim with
               | Waiting =>
                   ([Resolved StUplift up],
                    Suspend (AwaitUpliftSim norm fin sust dec (Got up) Waiting))
               | Got sv =>
                   prepend [Resolved StUplift up]
                     (after_uplift_sim norm fin sust dec up sv)
               end
           end
  | AwaitUpliftSim norm fin sust dec up Waiting, StSimulate =>
      Some match parse_response r with
           | inl e => ([Failed StSimulate e], Raise e)
           | inr sim =>
               match up with
               | Waiting =>
                   ([Resolved StSimulate sim],
                    Suspend (AwaitUpliftSim norm fin sust dec Waiting (Got sim)))
               | Got uv =>
                   prepend [Resolved StSimulate sim]
                     (after_uplift_sim norm fin sust dec uv sim)
               end
           end
  | AwaitReview norm fin sust dec up sim, StReview =>
      Some match parse_response r with
           | inl e => ([Failed StReview e], Raise e)
           | inr rev => after_review rev
           end
  | _, _ => None
  end.

(** Lines 76-81: [catch] and [finally]. *)
Definition epilogue (o : outcome) : list action :=
  match o with
  | Suspend _ => []
  | Raise e => [ConsoleError e; Alert alert_text; SetLoading false]
  | Return => [SetLoading false]
  end.

(** Lines 49-52: the synchronous start of [runAnalysis]. *)
Definition prologue (input : BorrowerInput) : list action * outcome :=
  let r := normalizeData input in
  prepend ([SetLoading true] ++ call StNormalize (ArgInput input) r)
    (await1 StNormalize r AwaitNormalize).

Definition executed (r : list action * outcome) : list action :=
  r.1 ++ epilogue r.2.

Definition run_after (ru : run) (r : list action * outcome) : run :=
  {| isRealTime := false; snapshot := snapshot ru;
     started_at := started_at ru; pc := next_pc r.2;
     history := history ru ++ executed r |}.

Definition new_run (i : BorrowerInput) (now : nat) : run :=
  run_after {| isRealTime := false; snapshot := i; started_at := now;
               pc := Finished; history := [] |}
    (prologue i).

Definition runAnalysis (i : BorrowerInput) (now : nat) (s : app) : app :=
  let s1 := apply_actions s (executed (prologue i)) in
  with_runs (runs s1 ++ [new_run i now]) s1.

Definition settle `{Host} (rid : nat) (st : stage) (r : response)
    (s : app) : app :=
  match runs s !! rid with
  | None => s
  | Some ru =>
      match resume (pc ru) st r with
      | None => s
      | Some res =>
          let s1 := apply_actions s (executed res) in
          with_runs (<[rid := run_after ru res]> (runs s1)) s1
      end
  end.

(** The form and the button belong to the Input step (lines 88-140), the
    button is disabled while [loading]; Back and Next as in the later
    component (lines 481-495).  There is no business-type button. *)
Definition enabled (s : app) (e : event) : bool :=
  match e with
  | Change _ _ _ => mounted s && Z.eqb (step s) AppStep.Input
  | PickBusinessType _ => false
  | ClickProceed =>
      mounted s && Z.eqb (step s) AppStep.Input && negb (loading s)
  | ClickNext =>
      mounted s && Z.ltb 1 (step s) && negb (Z.eqb (step s) AppStep.Review)
  | ClickBack => mounted s && Z.ltb 1 (step s)
  | Unmount => mounted s
  | Elapse _ | Settle _ _ _ => true
  end.

Definition handle `{Host} (e : event) (s : app) : app :=
  match e with
  | Change name value _ => with_input (handleInputChange name value (input s)) s
  | PickBusinessType _ => s
  | ClickProceed => runAnalysis (input s) (clock s) s
  | ClickNext => with_ui (nextStep (step s)) (loading s) (realTimeUpdate s) s
  | ClickBack => with_ui (prevStep (step s)) (loading s) (realTimeUpdate s) s
  | Elapse ms => with_clock (clock s + ms)%nat s
  | Settle rid st r => settle rid st r s
  | Unmount => with_mounted false s
  end.

Definition dispatch `{Host} (s : app) (e : event) : app :=
  if enabled s e then handle e s else s.

Definition exec `{Host} (s : app) (evs : list event) : app :=
  foldl dispatch s evs.

Definition reachable `{Host} (s : app) : Prop :=
  ∃ evs, s = exec init evs.

(** At most the newest run is in flight, and then [loading] is set. *)
Definition one_in_flight (s : app) : Prop :=
  (loading s = false → Forall (λ ru, pc ru = Finished) (runs s))
  ∧ ((runs s = [] ∧ loading s = false)
     ∨ ∃ rs ru, runs s = rs ++ [ru]
                ∧ Forall (λ ru, pc ru = Finished) rs
                ∧ (pc ru = Finished → loading s = false)).

End Legacy.

(** The first attempt of the earlier component fails at normalize, the
    second is in flight; a click in between is ignored. *)
Definition retried : list event :=
  [ClickProceed; ClickProceed; Settle 0 StNormalize Rejected; ClickProceed].

(** Back on the form after a first run: the carbon slider moves, which
    arms the timer, and then the energy source, which the effect does not
    watch, is edited before the timer fires. *)
Definition unwatched_edit_pending : app :=
  exec back_on_form
    [Change "carbonIntensity" "20" "range";
     Change "energySource" "Solar" "textarea"].

(** * Properties *)

Example parse_decision_payload :
  JSON_parse (quoted "{'greenCreditScore': 72, 'tags': [true, null, 'x']}")
  = Some (JObj [("greenCreditScore", JNum 72);
                ("tags", JArr [JBool true; JNull; JStr "x"])]).
Proof. reflexivity. Qed.

Example parse_rejects_garbage :
  JSON_parse "Sorry, I cannot help with that." = None
  ∧ JSON_parse (quoted "{'score': 12") = None
  ∧ JSON_parse "null" = Some JNull.
Proof. repeat split; reflexivity. Qed.

Example number_of_slider_value :
  Number "20" = Some 20 ∧ Number "5000000" = Some 5000000
  ∧ Number "abc" = None.
Proof. repeat split; reflexivity. Qed.

(** ** Lemmas on histories *)

Lemma all_steps_app P p l1 l2 :
  all_steps P p (l1 ++ l2) ↔ all_steps P p l1 ∧ all_steps P (p ++ l1) l2.
Proof.
  revert p. induction l1 as [|a l1 IH]; intros p; simpl.
  - rewrite app_nil_r. tauto.
  - rewrite IH, <- app_assoc. simpl. tauto.
Qed.

Lemma all_steps_split P l l1 a l2 :
  all_steps P [] l → l = l1 ++ a :: l2 → P l1 a.
Proof.
  intros H ->. apply all_steps_app in H as [_ H]. simpl in H. tauto.
Qed.

Lemma failures_app l1 l2 : failures (l1 ++ l2) = failures l1 ++ failures l2.
Proof. apply omap_app. Qed.

Lemma invoked_app l1 l2 : invoked (l1 ++ l2) = invoked l1 ++ invoked l2.
Proof. apply omap_app. Qed.

Lemma resolved_app l1 l2 : resolved (l1 ++ l2) = resolved l1 ++ resolved l2.
Proof. apply omap_app. Qed.

Lemma published_app l1 l2 :
  published (l1 ++ l2) = published l1 ++ published l2.
Proof. apply omap_app. Qed.

Lemma step_changes_app l1 l2 :
  step_changes (l1 ++ l2) = step_changes l1 ++ step_changes l2.
Proof. apply omap_app. Qed.

Lemma feeds_app l1 l2 : feeds (l1 ++ l2) = feeds l1 ++ feeds l2.
Proof. apply omap_app. Qed.

Lemma logged_app l1 l2 : logged (l1 ++ l2) = logged l1 ++ logged l2.
Proof. apply omap_app. Qed.

Lemma alerted_app l1 l2 : alerted (l1 ++ l2) = alerted l1 ++ alerted l2.
Proof. apply omap_app. Qed.

Lemma elem_of_failures st e l : (st, e) ∈ failures l ↔ Failed st e ∈ l.
Proof.
  unfold failures. rewrite list_elem_of_omap. split.
  - intros ([] & Hin & Heq); simplify_eq. done.
  - intros Hin. by exists (Failed st e).
Qed.

Lemma elem_of_invoked st l : st ∈ invoked l ↔ ∃ a, Invoke st a ∈ l.
Proof.
  unfold invoked. rewrite list_elem_of_omap. split.
  - intros ([] & Hin & Heq); simplify_eq. eauto.
  - intros [a Hin]. by exists (Invoke st a).
Qed.

Lemma elem_of_resolved st v l : (st, v) ∈ resolved l ↔ Resolved st v ∈ l.
Proof.
  unfold resolved. rewrite list_elem_of_omap. split.
  - intros ([] & Hin & Heq); simplify_eq. done.
  - intros Hin. by exists (Resolved st v).
Qed.

Lemma elem_of_published st v l : (st, v) ∈ published l ↔ Publish st v ∈ l.
Proof.
  unfold published. rewrite list_elem_of_omap. split.
  - intros ([] & Hin & Heq); simplify_eq. done.
  - intros Hin. by exists (Publish st v).
Qed.

(** ** The discipline of a run is an invariant *)

Ltac unfold_run :=
  unfold executed, after_normalize, after_risk, after_decision,
    after_uplift_sim, after_review, prologue, prepend, call, await1, await2,
    assessFinancialRisk, assessSustainabilityRisk, getDecision, planUplift,
    simulateClimate, getReview, normalizeData, epilogue, next_pc in *.

Ltac norm_hist :=
  repeat rewrite <- app_assoc; simpl;
  unfold quiet in *;
  repeat (rewrite failures_app || rewrite invoked_app ||
          rewrite resolved_app || rewrite published_app ||
          rewrite step_changes_app || rewrite logged_app ||
          rewrite alerted_app); simpl.

Ltac pick :=
  repeat first [apply list_elem_of_here | apply list_elem_of_further].

Ltac solve_hist :=
  repeat match goal with
  | |- _ ∧ _ => split
  | |- True => exact I
  | |- Forall _ [] => constructor
  | |- Forall _ (_ :: _) => constructor
  | |- ∃ v, (_, v) ∈ _ ∧ _ => eexists; split; [solve [pick] | set_solver]
  | |- ∃ x, last _ = Some x ∧ joins x =>
      eexists; split; [rewrite last_app; reflexivity | exact I]
  | |- @eq (list _) _ _ => reflexivity
  | |- @eq Z _ _ => reflexivity
  | |- NoDup _ => compute_done
  | |- _ ∈ _ => set_solver
  | |- _ ∉ _ => set_solver
  | |- _ ⊆ _ => set_solver
  end.

(** Case analysis on a resumed run: which [await], how the promise
    settled, and which adapters threw. *)
Ltac resume_cases Hres :=
  match type of Hres with
  | resume _ ?p ?st _ = Some _ =>
      destruct p, st; simpl in Hres; try discriminate
  end;
  repeat match type of Hres with
         | context [match ?x with _ => _ end] => destruct x eqn:?
         end;
  simplify_eq; unfold_run;
  repeat match goal with
         | |- context [if is_null ?v then _ else _] =>
             destruct (is_null v) eqn:?; simpl in *
         | |- context [if is_null ?v || _ then _ else _] =>
             destruct (is_null v) eqn:?; simpl in *
         | _ : context [if is_null ?v then _ else _] |- _ =>
             destruct (is_null v) eqn:?; simpl in *
         | _ : context [if is_null ?v || _ then _ else _] |- _ =>
             destruct (is_null v) eqn:?; simpl in *
         | |- context [if score_throws ?v then _ else _] =>
             destruct (score_throws v) eqn:?; simpl in *
         | |- context [if score_throws ?v || _ then _ else _] =>
             destruct (score_throws v) eqn:?; simpl in *
         | _ : context [if score_throws ?v then _ else _] |- _ =>
             destruct (score_throws v) eqn:?; simpl in *
         | _ : context [if score_throws ?v || _ then _ else _] |- _ =>
             destruct (score_throws v) eqn:?; simpl in *
         end;
  simpl in *; simplify_eq.

Section run_invariant.
Context `{Host}.

Lemma resume_quiet b p st r res :
  resume b p st r = Some res →
  match res.2 with
  | Raise e =>
      ∃ pre st', res.1 = pre ++ [Failed st' e] ∧ failures pre = [] ∧ quiet pre
  | _ => failures res.1 = []
  end.
Proof.
  intros Hres. resume_cases Hres; try reflexivity;
    try (destruct b; reflexivity);
    first [ by eexists [], _
          | by eexists [_], _
          | by eexists [_; _], _
          | by eexists [_; _; _], _
          | by eexists [_; _; _; _], _
          | by eexists [_; _; _; _; _], _
          | by eexists [_; _; _; _; _; _], _
          | by eexists [_; _; _; _; _; _; _], _ ].
Qed.

Lemma resume_steps b p st r res l :
  pc_facts b p l → resume b p st r = Some res →
  all_steps step_ok l (executed b res).
Proof.
  intros Hpc Hres. resume_cases Hres; destruct_and?; destruct b; simpl; norm_hist;
  repeat match goal with Heq : _ = _ |- _ => rewrite Heq end; simpl.
  all: solve_hist.
Qed.

Lemma resume_facts b p st r res l :
  pc_facts b p l → resume b p st r = Some res →
  pc_facts b (next_pc res.2) (l ++ executed b res)
  ∧ NoDup (invoked (l ++ executed b res)).
Proof.
  intros Hpc Hres.
  assert (Hl : failures l = [] ∧ invoked l = invoked_at p ∧ quiet l).
  { destruct p; try (simpl in Hpc; tauto). by destruct st. }
  destruct Hl as (Hf & Hi & Hl'). split.
  - pose proof (resume_quiet _ _ _ _ _ Hres) as Hq.
    destruct res as [acts [p'|e|]]; simpl in Hq |- *.
    + clear Hq. unfold quiet in *.
      resume_cases Hres; destruct_and?; norm_hist;
        repeat match goal with Heq : _ = _ |- _ => rewrite Heq end; simpl;
        solve_hist.
    + destruct Hq as (pre & st' & -> & Hpre & Hq1 & Hq2 & Hq3). right.
      destruct Hl' as (Hl1 & Hl2 & Hl3).
      exists (l ++ pre), st', e. unfold executed, quiet. simpl.
      rewrite <- !app_assoc, failures_app, step_changes_app, logged_app,
        alerted_app, Hf, Hpre, Hq1, Hq2, Hq3, Hl1, Hl2, Hl3. done.
    + left. unfold executed. simpl. rewrite !failures_app, Hf, Hq. done.
  - rewrite invoked_app, Hi.
    clear Hpc Hf Hi. resume_cases Hres; try destruct b; simpl; compute_done.
Qed.

Lemma advance_ok ru st r : run_ok ru → run_ok (advance ru st r).
Proof.
  intros (Hall & Hpc & Hnd). unfold advance.
  destruct (resume _ _ _ _) as [res|] eqn:Hres; [|done].
  destruct (resume_facts _ _ _ _ _ _ Hpc Hres) as [Hpc' Hnd'].
  repeat split; simpl; [|done..].
  apply all_steps_app. split; [done|]. by eapply resume_steps.
Qed.

Lemma new_run_ok b i now : run_ok (new_run b i now).
Proof.
  unfold run_ok, new_run, run_after. unfold_run. simpl.
  destruct b; simpl; unfold quiet; solve_hist.
Qed.

End run_invariant.

(** ** What a list of statements does to the component *)

Lemma apply_actions_cons s a l :
  apply_actions s (a :: l) = apply_actions (apply_action s a) l.
Proof. reflexivity. Qed.

Lemma apply_actions_app s l1 l2 :
  apply_actions s (l1 ++ l2) = apply_actions (apply_actions s l1) l2.
Proof. apply foldl_app. Qed.

(** The statements of [runAnalysis] touch neither the input, nor the
    timers, nor the other runs. *)
Lemma apply_actions_frame s l :
  mounted (apply_actions s l) = mounted s
  ∧ input (apply_actions s l) = input s
  ∧ debounceTimer (apply_actions s l) = debounceTimer s
  ∧ clock (apply_actions s l) = clock s
  ∧ timers (apply_actions s l) = timers s
  ∧ next_timer (apply_actions s l) = next_timer s
  ∧ runs (apply_actions s l) = runs s.
Proof.
  revert s. induction l as [|a l IH]; intros s; [done|].
  rewrite apply_actions_cons.
  destruct (IH (apply_action s a)) as (-> & -> & -> & -> & -> & -> & ->).
  by destruct a.
Qed.

Lemma apply_actions_step s l :
  step (apply_actions s l) = default (step s) (last (step_changes l)).
Proof.
  revert s. induction l as [|a l IH]; intros s; [done|].
  rewrite apply_actions_cons, IH.
  destruct a; simpl; try done.
  unfold step_changes. simpl. fold (step_changes l).
  destruct (last (step_changes l)) eqn:Hl.
  - by rewrite last_cons, Hl.
  - by rewrite last_cons, Hl.
Qed.

Lemma apply_actions_output s l :
  console (apply_actions s l) = console s ++ logged l
  ∧ alerts (apply_actions s l) = alerts s ++ alerted l.
Proof.
  revert s. induction l as [|a l IH]; intros s.
  - simpl. by rewrite !app_nil_r.
  - rewrite apply_actions_cons. destruct (IH (apply_action s a)) as [-> ->].
    destruct a; simpl; rewrite <- ?app_assoc; done.
Qed.

Lemma get_set_artifact st st' v p :
  get_artifact st (set_artifact st' v p)
  = if decide (st' = st) then v else get_artifact st p.
Proof. by destruct st, st'. Qed.

Lemma apply_actions_artifact st s l :
  get_artifact st (artifacts (apply_actions s l))
  = default (get_artifact st (artifacts s)) (last_published st l).
Proof.
  revert s. induction l as [|a l IH]; intros s; [done|].
  rewrite apply_actions_cons, IH. unfold last_published.
  destruct a; simpl; try done.
  rewrite get_set_artifact.
  destruct (decide (st0 = st)); simpl; [|done].
  rewrite last_cons. by destruct (last _).
Qed.

Lemma pipeline_eq p q :
  (∀ st, get_artifact st p = get_artifact st q) → p = q.
Proof.
  intros Heq. destruct p, q.
  pose proof (Heq StNormalize). pose proof (Heq StFinancial).
  pose proof (Heq StSustainability). pose proof (Heq StDecision).
  pose proof (Heq StUplift). pose proof (Heq StSimulate).
  pose proof (Heq StReview). simpl in *. by subst.
Qed.

(** ** The component as a whole *)

Section app_lemmas.
Context `{Host}.

Lemma exec_snoc s evs e : exec s (evs ++ [e]) = dispatch (exec s evs) e.
Proof. unfold exec. by rewrite foldl_app. Qed.

Lemma exec_app s evs1 evs2 : exec s (evs1 ++ evs2) = exec (exec s evs1) evs2.
Proof. apply foldl_app. Qed.

Lemma exec_cons s e evs : exec s (e :: evs) = exec (dispatch s e) evs.
Proof. reflexivity. Qed.

(** Induction over the tasks executed so far. *)
Lemma exec_invariant (P : app → Prop) s :
  P s → (∀ s' e, P s' → P (dispatch s' e)) → ∀ evs, P (exec s evs).
Proof.
  intros Hs Hstep evs. revert s Hs.
  induction evs as [|e evs IH]; intros s Hs; [done|].
  rewrite exec_cons. apply IH, Hstep, Hs.
Qed.

Lemma reachable_invariant (P : app → Prop) :
  P init → (∀ s e, P s → P (dispatch s e)) → ∀ s, reachable s → P s.
Proof. intros Hi Hstep s [evs ->]. by apply exec_invariant. Qed.

Lemma reachable_dispatch s e : reachable s → reachable (dispatch s e).
Proof. intros [evs ->]. exists (evs ++ [e]). by rewrite exec_snoc. Qed.

Lemma reachable_exec s evs : reachable s → reachable (exec s evs).
Proof. intros [evs0 ->]. exists (evs0 ++ evs). by rewrite exec_app. Qed.

(** *** What each handler leaves alone *)

Lemma clear_pending_frame s :
  mounted (clear_pending s) = mounted s ∧ step (clear_pending s) = step s
  ∧ loading (clear_pending s) = loading s
  ∧ realTimeUpdate (clear_pending s) = realTimeUpdate s
  ∧ input (clear_pending s) = input s
  ∧ artifacts (clear_pending s) = artifacts s
  ∧ debounceTimer (clear_pending s) = debounceTimer s
  ∧ clock (clear_pending s) = clock s
  ∧ next_timer (clear_pending s) = next_timer s
  ∧ runs (clear_pending s) = runs s
  ∧ console (clear_pending s) = console s
  ∧ alerts (clear_pending s) = alerts s.
Proof.
  unfold clear_pending.
  destruct (debounceTimer s) as [[|n]|] eqn:E; repeat split; done.
Qed.

Lemma debounce_effect_frame s :
  mounted (debounce_effect s) = mounted s
  ∧ step (debounce_effect s) = step s
  ∧ loading (debounce_effect s) = loading s
  ∧ realTimeUpdate (debounce_effect s) = realTimeUpdate s
  ∧ input (debounce_effect s) = input s
  ∧ artifacts (debounce_effect s) = artifacts s
  ∧ clock (debounce_effect s) = clock s
  ∧ runs (debounce_effect s) = runs s
  ∧ console (debounce_effect s) = console s
  ∧ alerts (debounce_effect s) = alerts s.
Proof.
  unfold debounce_effect.
  pose proof (clear_pending_frame s) as Hc. destruct_and!.
  by destruct (truthy _).
Qed.

Lemma setInput_frame i s :
  mounted (setInput i s) = mounted s ∧ step (setInput i s) = step s
  ∧ loading (setInput i s) = loading s
  ∧ realTimeUpdate (setInput i s) = realTimeUpdate s
  ∧ input (setInput i s) = i
  ∧ artifacts (setInput i s) = artifacts s
  ∧ clock (setInput i s) = clock s
  ∧ runs (setInput i s) = runs s
  ∧ console (setInput i s) = console s
  ∧ alerts (setInput i s) = alerts s.
Proof.
  unfold setInput. case_decide; [done|].
  pose proof (debounce_effect_frame (clear_pending (with_input i s))) as Hd.
  pose proof (clear_pending_frame (with_input i s)) as Hc.
  destruct_and!. simpl in *. repeat split; congruence.
Qed.

Lemma runAnalysis_runs b i now s :
  runs (runAnalysis b i now s) = runs s ++ [new_run b i now].
Proof.
  unfold runAnalysis. simpl.
  by destruct (apply_actions_frame s (executed b (prologue b i)))
    as (_ & _ & _ & _ & _ & _ & ->).
Qed.

Lemma foldl_fire_runs s ts :
  runs (foldl fire s ts)
  = runs s ++ ((λ t, new_run true (captured t) (deadline t)) <$> ts).
Proof.
  revert s. induction ts as [|t ts IH]; intros s; simpl.
  - by rewrite app_nil_r.
  - rewrite IH. unfold fire. rewrite runAnalysis_runs, <- app_assoc. done.
Qed.

Lemma elapse_runs ms s :
  runs (elapse ms s)
  = runs s ++ ((λ t, new_run true (captured t) (deadline t))
                 <$> List.filter (is_due (clock s + ms)) (timers s)).
Proof. unfold elapse. by rewrite foldl_fire_runs. Qed.

Lemma settle_runs rid st r s ru :
  runs s !! rid = Some ru →
  runs (settle rid st r s) = <[rid := advance ru st r]> (runs s).
Proof.
  intros Hru. unfold settle, advance. rewrite Hru.
  destruct (resume _ _ _ _) as [res|]; simpl.
  - by destruct (apply_actions_frame s (executed (isRealTime ru) res))
      as (_ & _ & _ & _ & _ & _ & ->).
  - by rewrite list_insert_id.
Qed.

Lemma settle_unknown rid st r s :
  runs s !! rid = None → settle rid st r s = s.
Proof. intros Hru. unfold settle. by rewrite Hru. Qed.

(** Every run of a reachable state obeys the discipline. *)
Lemma dispatch_runs_ok s e :
  Forall run_ok (runs s) → Forall run_ok (runs (dispatch s e)).
Proof.
  intros Hok. unfold dispatch. destruct (enabled s e); [|done].
  destruct e as [name val ty|ty| | | |ms|rid st r|]; unfold handle.
  - by destruct (setInput_frame (handleInputChange name val ty (input s)) s)
      as (_ & _ & _ & _ & _ & _ & _ & -> & _).
  - by destruct (setInput_frame (<["businessType" := VStr ty]> (input s)) s)
      as (_ & _ & _ & _ & _ & _ & _ & -> & _).
  - rewrite runAnalysis_runs. apply Forall_app. split; [done|].
    apply Forall_singleton, new_run_ok.
  - done.
  - done.
  - rewrite elapse_runs. apply Forall_app. split; [done|].
    apply Forall_fmap, Forall_forall. intros t _. apply new_run_ok.
  - destruct (runs s !! rid) as [ru|] eqn:Hru.
    + rewrite (settle_runs _ _ _ _ _ Hru). apply Forall_insert; [done|].
      apply advance_ok. by eapply Forall_lookup_1.
    + by rewrite settle_unknown.
  - simpl. by destruct (clear_pending_frame s) as (_&_&_&_&_&_&_&_&_& -> &_).
Qed.

Lemma reachable_runs_ok s : reachable s → Forall run_ok (runs s).
Proof.
  apply (reachable_invariant (λ s, Forall run_ok (runs s))).
  - constructor.
  - apply dispatch_runs_ok.
Qed.

End app_lemmas.

(** ** Claims on the history of a run *)

Section history_claims.
Context `{Host}.

Lemma earlier_requires st d : d ∈ requires st → d ∈ earlier st.
Proof. destruct st; simpl; set_solver. Qed.

Lemma run_of_reachable s rid ru :
  reachable s → runs s !! rid = Some ru → run_ok ru.
Proof.
  intros Hs Hru. eapply Forall_lookup_1; [|done]. by apply reachable_runs_ok.
Qed.

Lemma invoke_after_earlier s rid ru l1 st a l2 d :
  reachable s → runs s !! rid = Some ru →
  history ru = l1 ++ Invoke st a :: l2 → d ∈ earlier st →
  failures l1 = [] ∧ ∃ v, Resolved d v ∈ l1 ∧ Publish d v ∈ l1.
Proof.
  intros Hs Hru Hh Hd.
  destruct (run_of_reachable _ _ _ Hs Hru) as (Hall & _ & _).
  pose proof (all_steps_split _ _ _ _ _ Hall Hh) as (Hf & _ & Hreq).
  split; [done|].
  rewrite Forall_forall in Hreq. destruct (Hreq d Hd) as (v & Hp & Hr).
  exists v. by rewrite <- elem_of_resolved, <- elem_of_published.
Qed.

(** C2. Within a run the stages start in dependency order: when the
    adapter of a stage is called, every stage it depends on (normalize
    for the two risk scorers; both risk scorers for the decision, for the
    uplift plan and for the simulation; all six earlier stages for the
    review) has resolved successfully in that run, no stage of the run
    has failed, and the artifact of each of them has been set. *)
Theorem stages_start_in_dependency_order s rid ru l1 st a l2 d :
  reachable s → runs s !! rid = Some ru →
  history ru = l1 ++ Invoke st a :: l2 →
  d ∈ requires st →
  failures l1 = [] ∧ ∃ v, Resolved d v ∈ l1 ∧ Publish d v ∈ l1.
Proof.
  intros Hs Hru Hh Hd.
  apply (invoke_after_earlier s rid ru l1 st a l2 d Hs Hru Hh).
  by apply earlier_requires.
Qed.

End history_claims.

Lemma stages_start_in_dependency_order_witness :
  failures (take 14 (history (run_at (exec init first_run) 0))) = []
  ∧ ∃ v, Resolved StSustainability v
           ∈ take 14 (history (run_at (exec init first_run) 0))
         ∧ Publish StSustainability v
           ∈ take 14 (history (run_at (exec init first_run) 0)).
Proof.
  eapply (stages_start_in_dependency_order (exec init first_run) 0
            (run_at (exec init first_run) 0) _ StDecision
            (ArgJson [_; _])
            (drop 15 (history (run_at (exec init first_run) 0)))).
  - by exists first_run.
  - vm_compute. reflexivity.
  - vm_compute. reflexivity.
  - compute_done.
Defined.

Section history_claims2.
Context `{Host}.

Lemma epilogue_quiet b o :
  failures (epilogue b o) = [] ∧ invoked (epilogue b o) = []
  ∧ published (epilogue b o) = [] ∧ step_changes (epilogue b o) = [].
Proof. by destruct o, b. Qed.

(** [catch] and [finally] write no artifact and leave the step alone. *)
Lemma epilogue_keeps_artifacts b o s :
  artifacts (apply_actions s (epilogue b o)) = artifacts s
  ∧ step (apply_actions s (epilogue b o)) = step s.
Proof. by destruct o, b. Qed.

Lemma finished_is_final ru st r :
  pc ru = Finished → resume (isRealTime ru) (pc ru) st r = None.
Proof. intros ->. by destruct st. Qed.

Lemma failed_run_shape ru st e :
  run_ok ru → Failed st e ∈ history ru →
  pc ru = Finished
  ∧ ∃ l1, history ru = l1 ++ Failed st e :: epilogue (isRealTime ru) (Raise e)
          ∧ failures l1 = [] ∧ quiet l1.
Proof.
  intros (_ & Hpc & _) Hin. apply elem_of_failures in Hin.
  destruct (pc ru) eqn:Hp; simpl in Hpc;
    try (destruct Hpc as (Hf & _); rewrite Hf in Hin; set_solver).
  split; [done|].
  destruct Hpc as [Hf|(l1 & st' & e' & Hh & Hf & Hq)];
    [rewrite Hf in Hin; set_solver|].
  exists l1. rewrite Hh in Hin |- *. rewrite failures_app, Hf in Hin.
  destruct (isRealTime ru); simpl in Hin;
    apply list_elem_of_singleton in Hin; by simplify_eq.
Qed.

(** C3. A stage failure halts the run at that stage: the history of the
    run ends with the failure followed by [catch] and [finally] only, so
    no adapter is called after it; the run is over, so the settlement of
    any promise it still holds changes nothing; no adapter is called
    twice in a run, so the failed stage is not retried; and [catch] and
    [finally] write no artifact, so what the run has published stays. *)
Theorem failure_halts_the_run s rid ru st e :
  reachable s → runs s !! rid = Some ru → Failed st e ∈ history ru →
  (∃ l1, history ru = l1 ++ Failed st e :: epilogue (isRealTime ru) (Raise e)
         ∧ failures l1 = [])
  ∧ invoked (epilogue (isRealTime ru) (Raise e)) = []
  ∧ pc ru = Finished
  ∧ (∀ st' r', settle rid st' r' s = s)
  ∧ NoDup (invoked (history ru))
  ∧ (∀ s0, artifacts (apply_actions s0 (epilogue (isRealTime ru) (Raise e)))
           = artifacts s0).
Proof.
  intros Hs Hru Hin.
  pose proof (run_of_reachable _ _ _ Hs Hru) as Hok.
  destruct (failed_run_shape _ _ _ Hok Hin) as (Hp & l1 & Hh & Hf & _).
  repeat split; try done.
  - by exists l1.
  - by destruct (isRealTime ru).
  - intros st' r'. unfold settle. by rewrite Hru, finished_is_final.
  - by destruct Hok as (_ & _ & Hnd).
  - intros s0. apply epilogue_keeps_artifacts.
Qed.


End history_claims2.

Lemma failure_halts_the_run_witness :
  NoDup (invoked (history (run_at (exec init sibling_fails) 0)))
  ∧ pc (run_at (exec init sibling_fails) 0) = Finished.
Proof.
  destruct (failure_halts_the_run (exec init sibling_fails) 0
              (run_at (exec init sibling_fails) 0)
              StSustainability OracleError)
    as (_ & _ & Hp & _ & Hnd & _).
  - by exists sibling_fails.
  - vm_compute. reflexivity.
  - vm_compute. pick.
  - split; [exact Hnd | exact Hp].
Defined.



(** ** Claims on the published state *)

Section c1.
Context `{Host}.

Lemma settle_publishes s rid ru st r res st' v :
  runs s !! rid = Some ru →
  resume (isRealTime ru) (pc ru) st r = Some res →
  Publish st' v ∈ res.1 →
  get_artifact st' (artifacts (settle rid st r s)) = v.
Proof.
  intros Hru Hres Hin. unfold settle. rewrite Hru, Hres. simpl.
  rewrite apply_actions_artifact.
  destruct (isRealTime ru); resume_cases Hres;
    set_unfold in Hin; destruct_or?; simplify_eq; reflexivity.
Qed.

End c1.



Section c8.
Context `{Host}.

(** C8. When a stage failure takes a run to [catch], the task that
    delivers it logs the error, shows the alert if and only if the run is
    interactive, clears the two progress flags, and changes neither the
    step nor the input; [catch] and [finally] write no artifact, and when
    the failure is that of the settled call itself no artifact changes at
    all.  Over its whole life a failed run has changed the step never,
    logged once, and alerted once if interactive and never if
    background. *)
Theorem failure_is_handled_by_mode :
  (∀ s rid ru st r acts e,
     runs s !! rid = Some ru →
     resume (isRealTime ru) (pc ru) st r = Some (acts, Raise e) →
     let s' := settle rid st r s in
     step s' = step s
     ∧ console s' = console s ++ [e]
     ∧ alerts s' = (if isRealTime ru then alerts s
                    else alerts s ++ [alert_text])
     ∧ artifacts s' = artifacts (apply_actions s acts)
     ∧ (∀ e', parse_response r = inl e' → artifacts s' = artifacts s)
     ∧ loading s' = false ∧ realTimeUpdate s' = false
     ∧ input s' = input s)
  ∧ (∀ s rid ru st e,
       reachable s → runs s !! rid = Some ru → Failed st e ∈ history ru →
       step_changes (history ru) = []
       ∧ logged (history ru) = [e]
       ∧ alerted (history ru) = if isRealTime ru then [] else [alert_text]).
Proof.
  split.
  - intros s rid ru st r acts e Hru Hres. unfold settle.
    rewrite Hru, Hres. unfold executed.
    destruct (isRealTime ru); resume_cases Hres; simpl;
      repeat split; try done; intros; simplify_eq.
  - intros s rid ru st e Hs Hru Hin.
    pose proof (run_of_reachable _ _ _ Hs Hru) as Hok.
    destruct (failed_run_shape _ _ _ Hok Hin)
      as (_ & l1 & -> & _ & Hq1 & Hq2 & Hq3).
    rewrite step_changes_app, logged_app, alerted_app, Hq1, Hq2, Hq3.
    by destruct (isRealTime ru).
Qed.
End c8.

Lemma failure_is_handled_by_mode_witness :
  step (settle 1 StNormalize Rejected (exec init background_run_begins))
  = step (exec init background_run_begins)
  ∧ alerts (settle 1 StNormalize Rejected (exec init background_run_begins))
    = alerts (exec init background_run_begins)
  ∧ artifacts (settle 1 StNormalize Rejected (exec init background_run_begins))
    = artifacts (exec init background_run_begins)
  ∧ console (settle 1 StNormalize Rejected (exec init background_run_begins))
    = console (exec init background_run_begins) ++ [OracleError].
Proof.
  destruct (failure_is_handled_by_mode (H := host)) as [Htask _].
  destruct (Htask (exec init background_run_begins) 1%nat
              (run_at (exec init background_run_begins) 1)
              StNormalize Rejected [Failed StNormalize OracleError]
              OracleError)
    as (Hstep & Hcon & Hal & _ & Hart & _).
  - vm_compute. reflexivity.
  - vm_compute. reflexivity.
  - refine (conj Hstep (conj Hal (conj (Hart OracleError eq_refl) Hcon))).
Defined.

(** ** The wizard step *)

Section step_claim.
Context `{Host}.

Lemma runAnalysis_frame b i now s :
  mounted (runAnalysis b i now s) = mounted s
  ∧ step (runAnalysis b i now s) = step s
  ∧ input (runAnalysis b i now s) = input s
  ∧ artifacts (runAnalysis b i now s) = artifacts s
  ∧ debounceTimer (runAnalysis b i now s) = debounceTimer s
  ∧ clock (runAnalysis b i now s) = clock s
  ∧ timers (runAnalysis b i now s) = timers s
  ∧ next_timer (runAnalysis b i now s) = next_timer s
  ∧ console (runAnalysis b i now s) = console s
  ∧ alerts (runAnalysis b i now s) = alerts s.
Proof. by destruct b. Qed.

Lemma foldl_fire_frame s ts :
  mounted (foldl fire s ts) = mounted s
  ∧ step (foldl fire s ts) = step s
  ∧ input (foldl fire s ts) = input s
  ∧ artifacts (foldl fire s ts) = artifacts s
  ∧ debounceTimer (foldl fire s ts) = debounceTimer s
  ∧ clock (foldl fire s ts) = clock s
  ∧ timers (foldl fire s ts) = timers s
  ∧ next_timer (foldl fire s ts) = next_timer s
  ∧ console (foldl fire s ts) = console s
  ∧ alerts (foldl fire s ts) = alerts s.
Proof.
  revert s. induction ts as [|t ts IH]; intros s; [done|].
  simpl. destruct (IH (fire s t)) as (-> & -> & -> & -> & -> & -> & -> & -> & -> & ->).
  apply runAnalysis_frame.
Qed.

Lemma elapse_frame ms s :
  mounted (elapse ms s) = mounted s
  ∧ step (elapse ms s) = step s
  ∧ input (elapse ms s) = input s
  ∧ artifacts (elapse ms s) = artifacts s
  ∧ debounceTimer (elapse ms s) = debounceTimer s
  ∧ clock (elapse ms s) = (clock s + ms)%nat
  ∧ timers (elapse ms s)
    = List.filter (λ t, negb (is_due (clock s + ms) t)) (timers s)
  ∧ next_timer (elapse ms s) = next_timer s
  ∧ console (elapse ms s) = console s
  ∧ alerts (elapse ms s) = alerts s.
Proof.
  unfold elapse.
  match goal with |- context [foldl fire ?s0 ?ts] =>
    destruct (foldl_fire_frame s0 ts)
      as (-> & -> & -> & -> & -> & -> & -> & -> & -> & ->) end.
  done.
Qed.

Lemma settle_frame rid st r s :
  mounted (settle rid st r s) = mounted s
  ∧ input (settle rid st r s) = input s
  ∧ debounceTimer (settle rid st r s) = debounceTimer s
  ∧ clock (settle rid st r s) = clock s
  ∧ timers (settle rid st r s) = timers s
  ∧ next_timer (settle rid st r s) = next_timer s.
Proof.
  unfold settle. destruct (runs s !! rid) as [ru|]; [|done].
  destruct (resume _ _ _ _) as [res|]; [|done]. simpl.
  by destruct (apply_actions_frame s (executed (isRealTime ru) res))
    as (-> & -> & -> & -> & -> & -> & _).
Qed.

(** The only step a run sets is Normalization, as the last statement of
    a successful interactive run. *)
Lemma settle_step rid st r s :
  step (settle rid st r s) = step s
  ∨ (step (settle rid st r s) = AppStep.Normalization
     ∧ ∃ ru acts, runs s !! rid = Some ru ∧ isRealTime ru = false
                  ∧ resume false (pc ru) st r = Some (acts, Return)).
Proof.
  unfold settle. destruct (runs s !! rid) as [ru|] eqn:Hru; [|by left].
  destruct (resume _ _ _ _) as [res|] eqn:Hres; [|by left].
  simpl. rewrite apply_actions_step.
  destruct (isRealTime ru) eqn:Hb.
  - left. resume_cases Hres; reflexivity.
  - destruct res as [acts [p'|e|]].
    + left. resume_cases Hres; reflexivity.
    + left. resume_cases Hres; reflexivity.
    + right. split; [resume_cases Hres; reflexivity|]. by exists ru, acts.
Qed.

Lemma dispatch_step s e :
  step (dispatch s e) = step s
  ∨ (e = ClickNext ∧ step (dispatch s e) = nextStep (step s))
  ∨ (e = ClickBack ∧ step (dispatch s e) = prevStep (step s))
  ∨ ((∃ rid st r, e = Settle rid st r)
     ∧ step (dispatch s e) = AppStep.Normalization).
Proof.
  unfold dispatch. destruct (enabled s e); [|by left].
  destruct e as [name val ty|ty| | | |ms|rid st r|]; unfold handle.
  - left. by destruct (setInput_frame (handleInputChange name val ty (input s)) s)
      as (_ & -> & _).
  - left. by destruct (setInput_frame (<["businessType" := VStr ty]> (input s)) s)
      as (_ & -> & _).
  - left. by destruct (runAnalysis_frame false (input s) (clock s) s)
      as (_ & -> & _).
  - right. by left.
  - right. right. by left.
  - left. by destruct (elapse_frame ms s) as (_ & -> & _).
  - destruct (settle_step rid st r s) as [->|(-> & _)]; [by left|].
    right. right. right. split; [eauto|done].
  - left. simpl. by destruct (clear_pending_frame s) as (_ & -> & _).
Qed.

(** C10. The step is always a valid [AppStep], from Input (1) to
    Review (8): [nextStep] never passes Review, [prevStep] never goes
    below Input, both stay in range, the only other change of the step
    sets it to Normalization at the end of a successful interactive run,
    and so every reachable state has its step in range. *)
Theorem step_stays_a_valid_AppStep :
  (∀ prev, nextStep prev ≤ AppStep.Review)
  ∧ (∀ prev, AppStep.Input ≤ prevStep prev)
  ∧ (∀ prev, AppStep.Input ≤ prev ≤ AppStep.Review →
             AppStep.Input ≤ nextStep prev ≤ AppStep.Review
             ∧ AppStep.Input ≤ prevStep prev ≤ AppStep.Review)
  ∧ (∀ s rid st r,
       step (settle rid st r s) ≠ step s →
       step (settle rid st r s) = AppStep.Normalization
       ∧ ∃ ru acts, runs s !! rid = Some ru ∧ isRealTime ru = false
                    ∧ resume false (pc ru) st r = Some (acts, Return))
  ∧ (∀ s e, step (dispatch s e) = step s
            ∨ step (dispatch s e) = nextStep (step s)
            ∨ step (dispatch s e) = prevStep (step s)
            ∨ step (dispatch s e) = AppStep.Normalization)
  ∧ (∀ s, reachable s → AppStep.Input ≤ step s ≤ AppStep.Review).
Proof.
  assert (Hrange : ∀ prev, AppStep.Input ≤ prev ≤ AppStep.Review →
             AppStep.Input ≤ nextStep prev ≤ AppStep.Review
             ∧ AppStep.Input ≤ prevStep prev ≤ AppStep.Review).
  { unfold nextStep, prevStep, AppStep.Input, AppStep.Review. lia. }
  assert (Hdisp : ∀ s e, step (dispatch s e) = step s
            ∨ step (dispatch s e) = nextStep (step s)
            ∨ step (dispatch s e) = prevStep (step s)
            ∨ step (dispatch s e) = AppStep.Normalization).
  { intros s e. destruct (dispatch_step s e) as [?|[[_ ?]|[[_ ?]|[_ ?]]]]; auto. }
  split; [|split; [|split; [|split; [|split]]]].
  - intros prev. unfold nextStep. lia.
  - intros prev. unfold prevStep. lia.
  - exact Hrange.
  - intros s rid st r Hne. by destruct (settle_step rid st r s) as [?|?].
  - exact Hdisp.
  - apply reachable_invariant.
    + unfold init, AppStep.Input, AppStep.Review. simpl. lia.
    + intros s e Hs. destruct (Hrange _ Hs) as [Hn Hp].
      destruct (Hdisp s e) as [-> | [-> | [-> | ->]]]; done.
Qed.
End step_claim.

Lemma step_stays_a_valid_AppStep_witness :
  AppStep.Input ≤ step (exec init (first_run ++ [ClickNext; ClickBack; ClickBack]))
  ≤ AppStep.Review.
Proof.
  destruct (step_stays_a_valid_AppStep (H := host)) as (_ & _ & _ & _ & _ & Hr).
  apply Hr. by exists (first_run ++ [ClickNext; ClickBack; ClickBack]).
Defined.

(** ** The gate of the debounce effect *)

Section c5.
Context `{Host}.

Lemma last_published_none st l :
  st ∉ (published l).*1 → last_published st l = None.
Proof.
  unfold last_published, published. induction l as [|a l IH]; [done|].
  destruct a; simpl; try done.
  intros Hn. apply not_elem_of_cons in Hn. destruct Hn as [Hne Hn].
  simpl in Hne. destruct (decide (st0 = st)); [congruence|]. by apply IH.
Qed.

Lemma clear_pending_timers s t :
  t ∈ timers (clear_pending s) → t ∈ timers s.
Proof.
  unfold clear_pending.
  destruct (debounceTimer s) as [[|n]|] eqn:E; simpl; try done.
  unfold clearTimeout. rewrite list_elem_of_filter. tauto.
Qed.

Lemma setInput_timers_idle i s :
  truthy (normalized (artifacts s)) = false →
  ∀ t, t ∈ timers (setInput i s) → t ∈ timers s.
Proof.
  intros Hn t. unfold setInput. case_decide; [done|].
  unfold debounce_effect.
  destruct (clear_pending_frame (clear_pending (with_input i s)))
    as (_&_&_&_&_& Ha &_).
  destruct (clear_pending_frame (with_input i s)) as (_&_&_&_&_& Ha' &_).
  rewrite Ha, Ha'. simpl. rewrite Hn.
  intros Hin. by do 2 apply clear_pending_timers in Hin.
Qed.

Lemma never_normalized_app s l :
  (∀ ru, ru ∈ l → StNormalize ∉ (published (history ru)).*1) →
  never_normalized s → ∀ ru, ru ∈ runs s ++ l →
  StNormalize ∉ (published (history ru)).*1.
Proof. intros Hl Hs ru [?|?]%elem_of_app; auto. Qed.

Lemma dispatch_first_run_pending s e :
  first_run_pending s → first_run_pending (dispatch s e).
Proof.
  intros Hinv. unfold dispatch. destruct (enabled s e); [|done].
  destruct e as [name val ty|ty| | | |ms|rid st r|]; unfold handle.
  - intros Hnn.
    pose proof (setInput_frame (handleInputChange name val ty (input s)) s)
      as (_&_&_&_&_& Ha &_& Hr &_).
    unfold never_normalized in Hnn. rewrite Hr in Hnn.
    destruct (Hinv Hnn) as (Hn & Ht & Hb). rewrite Ha, Hr.
    repeat split; try done.
    apply elem_of_nil_inv. intros t Hin.
    apply setInput_timers_idle in Hin; [|by rewrite Hn]. rewrite Ht in Hin.
    by apply elem_of_nil in Hin.
  - intros Hnn.
    pose proof (setInput_frame (<["businessType" := VStr ty]> (input s)) s)
      as (_&_&_&_&_& Ha &_& Hr &_).
    unfold never_normalized in Hnn. rewrite Hr in Hnn.
    destruct (Hinv Hnn) as (Hn & Ht & Hb). rewrite Ha, Hr.
    repeat split; try done.
    apply elem_of_nil_inv. intros t Hin.
    apply setInput_timers_idle in Hin; [|by rewrite Hn]. rewrite Ht in Hin.
    by apply elem_of_nil in Hin.
  - intros Hnn. unfold never_normalized in Hnn.
    rewrite runAnalysis_runs in Hnn |- *.
    destruct (runAnalysis_frame false (input s) (clock s) s)
      as (_&_&_& -> &_&_& -> &_).
    destruct Hinv as (Hn & Ht & Hb).
    { intros ru Hru. apply Hnn. set_solver. }
    repeat split; try done. apply Forall_app. split; [done|].
    by apply Forall_singleton.
  - done.
  - done.
  - intros Hnn. unfold never_normalized in Hnn. rewrite elapse_runs in Hnn |- *.
    destruct (elapse_frame ms s) as (_&_&_& -> &_&_& -> &_).
    destruct Hinv as (Hn & Ht & Hb).
    { intros ru Hru. apply Hnn. set_solver. }
    rewrite Ht. simpl. rewrite app_nil_r. done.
  - destruct (runs s !! rid) as [ru|] eqn:Hru; [|by rewrite settle_unknown].
    intros Hnn. unfold never_normalized in Hnn.
    rewrite (settle_runs _ _ _ _ _ Hru) in Hnn |- *.
    assert (Hadv : StNormalize ∉ (published (history (advance ru st r))).*1).
    { apply Hnn. apply list_elem_of_lookup. exists rid.
      apply list_lookup_insert_eq. by eapply lookup_lt_Some. }
    destruct Hinv as (Hn & Ht & Hb).
    { intros ru' [j Hj]%list_elem_of_lookup.
      destruct (decide (j = rid)) as [->|Hne].
      - rewrite Hru in Hj. simplify_eq.
        unfold advance in Hadv. destruct (resume _ _ _ _); [|done].
        simpl in Hadv. rewrite published_app, fmap_app in Hadv. set_solver.
      - apply Hnn. apply list_elem_of_lookup. exists j.
        by rewrite list_lookup_insert_ne. }
    destruct (settle_frame rid st r s) as (_&_&_&_& -> &_).
    repeat split; try done.
    + unfold settle. rewrite Hru. unfold advance in Hadv.
      destruct (resume _ _ _ _) as [res|]; [|done]. simpl in Hadv |- *.
      rewrite published_app, fmap_app in Hadv.
      pose proof (apply_actions_artifact StNormalize s
                    (executed (isRealTime ru) res)) as Hart.
      simpl in Hart. rewrite Hart, last_published_none; [done|set_solver].
    + apply Forall_insert; [done|].
      rewrite Forall_forall in Hb. unfold advance.
      destruct (resume _ _ _ _); simpl; apply Hb;
        by eapply list_elem_of_lookup_2.
  - intros Hnn. unfold never_normalized in Hnn. simpl in *.
    destruct (clear_pending_frame s) as (_&_&_&_&_& Ha &_&_&_& Hr &_).
    rewrite Hr in Hnn. destruct (Hinv Hnn) as (Hn & Ht & Hb).
    rewrite Ha, Hr. repeat split; try done.
    apply elem_of_nil_inv. intros t Hin.
    apply clear_pending_timers in Hin. rewrite Ht in Hin.
    by apply elem_of_nil in Hin.
Qed.

(** C5, as the code has it.  The gate is [normalized]: while
    [normalized] is null (or otherwise falsy) an edit starts no run and
    adds no timer, and until some run has published its normalize result
    no timer is pending and every run started so far is interactive. *)
Theorem no_background_run_without_normalized_data :
  (∀ s name val ty,
     truthy (normalized (artifacts s)) = false →
     runs (dispatch s (Change name val ty)) = runs s
     ∧ ∀ t, t ∈ timers (dispatch s (Change name val ty)) → t ∈ timers s)
  ∧ (∀ s, reachable s → never_normalized s →
          normalized (artifacts s) = JNull ∧ timers s = []
          ∧ Forall (λ ru, isRealTime ru = false) (runs s)).
Proof.
  split.
  - intros s name val ty Hn. unfold dispatch.
    destruct (enabled _ _); [|done]. unfold handle. split.
    + by destruct (setInput_frame (handleInputChange name val ty (input s)) s)
        as (_&_&_&_&_&_&_& -> &_).
    + by apply setInput_timers_idle.
  - apply (reachable_invariant first_run_pending).
    + intros _. repeat split. constructor.
    + apply dispatch_first_run_pending.
Qed.
End c5.

Lemma no_background_run_without_normalized_data_witness :
  timers (exec init [Change "carbonIntensity" "20" "range"; Elapse 800;
                     ClickProceed; Change "revenue" "100000" "range"]) = [].
Proof.
  destruct (no_background_run_without_normalized_data (H := host)) as [_ Hinv].
  apply Hinv.
  - by eexists.
  - intros ru Hru. vm_compute in Hru.
    apply list_elem_of_singleton in Hru. subst ru. vm_compute.
    by intros ?%elem_of_nil.
Defined.

(** C5 as stated fails: the first run has published its normalize
    result and waits for the risk scores; no run has completed yet; the
    edit of the carbon slider schedules a timer, and 800 ms later
    background run 1 starts. *)
Lemma edit_during_first_run_starts_a_background_run :
  pc (run_at (exec init early_edit) 0)
  = AwaitRisk (payload ok_normalize) Waiting Waiting
  ∧ review (artifacts (exec init early_edit)) = JNull
  ∧ length (timers (exec init (take 3 early_edit))) = 1%nat
  ∧ length (runs (exec init (take 3 early_edit))) = 1%nat
  ∧ length (runs (exec init early_edit)) = 2%nat
  ∧ isRealTime (run_at (exec init early_edit) 1) = true
  ∧ started_at (run_at (exec init early_edit) 1) = 800%nat.
Proof. vm_compute. repeat split. Qed.

(** ** The debounce timer is single-flight *)

Section c6.
Context `{Host}.

Lemma clear_pending_clears s :
  timers_ok s → timers (clear_pending s) = [].
Proof.
  intros (Hn & _ & [Ht|(t & Ht & Hd & Hid)]); unfold clear_pending.
  - destruct (debounceTimer s) as [[|n]|]; simpl; by rewrite ?Ht.
  - rewrite Hd. destruct (timer_id t) as [|n] eqn:Hi; [lia|]. simpl.
    rewrite Ht. unfold clearTimeout. rewrite filter_cons, Hi.
    by case_decide.
Qed.

Lemma clear_pending_idem s :
  timers (clear_pending s) = [] → clear_pending (clear_pending s) = clear_pending s.
Proof.
  intros Ht. unfold clear_pending at 1.
  destruct (clear_pending_frame s) as (_&_&_&_&_&_& Hd &_& Hn &_).
  rewrite Hd, Hn, Ht.
  destruct (debounceTimer s) as [[|n]|] eqn:E; try done.
  unfold clear_pending in *. rewrite E in *. simpl in *. by rewrite Ht.
Qed.

(** An edit that changes a watched field cancels what is pending and,
    when [normalized] is set, leaves exactly one fresh timer. *)
Lemma setInput_restarts i s :
  timers_ok s → effect_deps i ≠ effect_deps (input s) →
  timers (setInput i s)
  = (if truthy (normalized (artifacts s))
     then [{| timer_id := next_timer s; deadline := (clock s + 800)%nat;
              captured := i |}]
     else [])
  ∧ debounceTimer (setInput i s)
    = (if truthy (normalized (artifacts s)) then Some (next_timer s)
       else debounceTimer s)
  ∧ next_timer (setInput i s)
    = (if truthy (normalized (artifacts s)) then S (next_timer s)
       else next_timer s).
Proof.
  intros Hok Hne. unfold setInput. case_decide; [done|].
  assert (Hok' : timers_ok (with_input i s)) by done.
  pose proof (clear_pending_clears _ Hok') as Hc.
  unfold debounce_effect. rewrite (clear_pending_idem _ Hc).
  destruct (clear_pending_frame (with_input i s))
    as (_&_&_&_& Hi & Ha & Hd & Hk & Hn &_).
  rewrite Ha, Hc, Hn, Hk, Hi. simpl.
  destruct (truthy _); simpl; [done|]. by rewrite Hc, Hd, Hn.
Qed.

Lemma setInput_timers_ok i s :
  timers_ok s → mounted s = true → timers_ok (setInput i s).
Proof.
  intros Hok Hm.
  destruct (setInput_frame i s) as (Hm' &_).
  destruct (decide (effect_deps i = effect_deps (input s))) as [Heq|Hne].
  { unfold setInput. by case_decide. }
  destruct (setInput_restarts i s Hok Hne) as (Ht & Hd & Hn).
  destruct Hok as (Hpos & _ & _).
  repeat split.
  - rewrite Hn. destruct (truthy _); lia.
  - congruence.
  - rewrite Ht, Hd, Hn. destruct (truthy _); [right|by left].
    eexists. split; [done|]. simpl. split; [done|lia].
Qed.

Lemma filter_timers_ok s f cur :
  timers_ok s → cur = debounceTimer s →
  (timers s = [] → List.filter f (timers s) = []) →
  (List.filter f (timers s) = []
   ∨ ∃ t, List.filter f (timers s) = [t] ∧ cur = Some (timer_id t)
          ∧ (0 < timer_id t < next_timer s)%nat).
Proof.
  intros (_ & _ & [Ht|(t & Ht & Hd & Hid)]) -> Hnil; [left; auto|].
  rewrite Ht. simpl. destruct (f t); [right|by left]. by exists t.
Qed.

Lemma dispatch_timers_ok s e : timers_ok s → timers_ok (dispatch s e).
Proof.
  intros Hok. unfold dispatch. destruct (enabled s e) eqn:Hen; [|done].
  destruct e as [name val ty|ty| | | |ms|rid st r|]; unfold handle.
  - apply setInput_timers_ok; [done|].
    simpl in Hen. by destruct (mounted s).
  - apply setInput_timers_ok; [done|].
    simpl in Hen. by destruct (mounted s).
  - unfold timers_ok.
    by destruct (runAnalysis_frame false (input s) (clock s) s)
      as (-> &_&_&_& -> &_& -> & -> &_).
  - done.
  - done.
  - unfold timers_ok.
    destruct (elapse_frame ms s) as (-> &_&_&_& -> &_& -> & -> &_).
    destruct Hok as (Hpos & Hm & Ht). repeat split; [done|..].
    + intros Hf. by rewrite (Hm Hf).
    + apply filter_timers_ok; [done|done|]. by intros ->.
  - unfold timers_ok.
    by destruct (settle_frame rid st r s) as (-> &_& -> &_& -> & ->).
  - pose proof (clear_pending_clears s Hok) as Hc.
    destruct (clear_pending_frame s) as (_&_&_&_&_&_&_&_& Hn &_).
    destruct Hok as (Hpos & _). unfold timers_ok. simpl.
    rewrite Hc, Hn. repeat split; [done|by left].
Qed.

Lemma reachable_timers_ok s : reachable s → timers_ok s.
Proof.
  apply (reachable_invariant timers_ok); [|apply dispatch_timers_ok].
  repeat split; simpl; [lia|by left].
Qed.

(** Once the component is unmounted nothing starts a run any more. *)
Lemma torn_down_stays s e :
  mounted s = false → timers s = [] →
  mounted (dispatch s e) = false ∧ timers (dispatch s e) = []
  ∧ length (runs (dispatch s e)) = length (runs s).
Proof.
  intros Hm Ht. unfold dispatch. destruct (enabled s e) eqn:Hen; [|done].
  destruct e as [name val ty|ty| | | |ms|rid st r|]; simpl in Hen;
    rewrite ?Hm in Hen; try discriminate; unfold handle.
  - destruct (elapse_frame ms s) as (-> &_&_&_&_&_& -> &_).
    rewrite elapse_runs, Ht. simpl. by rewrite app_nil_r.
  - destruct (settle_frame rid st r s) as (-> &_&_&_& -> &_).
    repeat split; try done.
    destruct (runs s !! rid) as [ru|] eqn:Hru.
    + by rewrite (settle_runs _ _ _ _ _ Hru), length_insert.
    + by rewrite settle_unknown.
Qed.

Lemma torn_down_forever s evs :
  mounted s = false → timers s = [] →
  length (runs (exec s evs)) = length (runs s).
Proof.
  revert s. induction evs as [|e evs IH]; intros s Hm Ht; [done|].
  rewrite exec_cons.
  destruct (torn_down_stays s e Hm Ht) as (Hm' & Ht' & <-). by apply IH.
Qed.

Lemma elapse_short ms s t :
  timers s = [t] → (clock s + ms < deadline t)%nat →
  timers (elapse ms s) = [t] ∧ runs (elapse ms s) = runs s.
Proof.
  intros Ht Hlt.
  destruct (elapse_frame ms s) as (_&_&_&_&_&_& -> &_).
  rewrite elapse_runs, Ht. simpl. unfold is_due.
  destruct (Nat.leb_spec (deadline t) (clock s + ms)); [lia|].
  simpl. by rewrite app_nil_r.
Qed.

Lemma elapse_due ms s t :
  timers s = [t] → (deadline t ≤ clock s + ms)%nat →
  timers (elapse ms s) = []
  ∧ runs (elapse ms s) = runs s ++ [new_run true (captured t) (deadline t)].
Proof.
  intros Ht Hle.
  destruct (elapse_frame ms s) as (_&_&_&_&_&_& -> &_).
  rewrite elapse_runs, Ht. simpl. unfold is_due.
  by destruct (Nat.leb_spec (deadline t) (clock s + ms)); [|lia].
Qed.

(** A burst of rapid edits leaves no run behind. *)
Lemma burst_starts_nothing edits s :
  timers_ok s → mounted s = true → step s = AppStep.Input →
  truthy (normalized (artifacts s)) = true → rapid (input s) edits →
  timers_ok (exec s (burst edits))
  ∧ mounted (exec s (burst edits)) = true
  ∧ step (exec s (burst edits)) = AppStep.Input
  ∧ artifacts (exec s (burst edits)) = artifacts s
  ∧ input (exec s (burst edits)) = edited (input s) edits
  ∧ runs (exec s (burst edits)) = runs s.
Proof.
  revert s. induction edits as [|[[[name val] ty] pause] edits IH];
    intros s Hok Hm Hst Hn Hr; [done|].
  destruct Hr as (Hne & Hp & Hr).
  cbn [burst edited]. rewrite !exec_cons.
  set (i := handleInputChange name val ty (input s)) in *.
  assert (Hd : dispatch s (Change name val ty) = setInput i s).
  { unfold dispatch. simpl. by rewrite Hm, Hst. }
  rewrite Hd.
  destruct (setInput_frame i s) as (Hm1 & Hs1 &_&_& Hi1 & Ha1 & Hc1 & Hr1 &_).
  destruct (setInput_restarts i s Hok Hne) as (Ht1 & _). rewrite Hn in Ht1.
  assert (Hd2 : dispatch (setInput i s) (Elapse pause)
                = elapse pause (setInput i s)) by done.
  rewrite Hd2.
  destruct (elapse_short pause (setInput i s) _ Ht1) as (Ht2 & Hr2).
  { simpl. lia. }
  destruct (elapse_frame pause (setInput i s))
    as (Hm2 & Hs2 & Hi2 & Ha2 &_).
  destruct (IH (elapse pause (setInput i s))) as (? & ? & ? & ? & ? & ?).
  - rewrite <- Hd2, <- Hd. by do 2 apply dispatch_timers_ok.
  - congruence.
  - congruence.
  - congruence.
  - by rewrite Hi2, Hi1.
  - split; [done|]. repeat split; try done; congruence.
Qed.

(** C6. The debounce timer is single-flight.  (1) In every reachable
    state at most one timer is pending.  (2) An edit that changes a
    watched field cancels whatever is pending, and, [normalized] being
    set, leaves exactly one fresh timer, due 800 ms later, holding the
    edited input.  (3) Unmounting leaves no timer, and no run starts
    afterwards.  (4) With [normalized] set, a burst of watched-field
    edits, each less than 800 ms after the previous one, starts no run,
    and once 800 ms have passed since the last edit exactly one
    background run has started, at the time of the last edit plus 800 ms,
    with the input as of the last edit. *)
Theorem debounce_timer_is_single_flight :
  (∀ s, reachable s → (length (timers s) ≤ 1)%nat)
  ∧ (∀ s name val ty,
       reachable s → enabled s (Change name val ty) = true →
       effect_deps (handleInputChange name val ty (input s))
       ≠ effect_deps (input s) →
       let s' := dispatch s (Change name val ty) in
       (∀ t, t ∈ timers s → t ∉ timers s')
       ∧ (truthy (normalized (artifacts s)) = true →
          timers s' = [{| timer_id := next_timer s;
                          deadline := (clock s + 800)%nat;
                          captured := input s' |}]))
  ∧ (∀ s evs,
       reachable s → mounted s = true →
       timers (dispatch s Unmount) = []
       ∧ length (runs (exec (dispatch s Unmount) evs)) = length (runs s))
  ∧ (∀ s edits name val ty wait,
       reachable s → mounted s = true → step s = AppStep.Input →
       truthy (normalized (artifacts s)) = true →
       rapid (input s) edits →
       effect_deps (handleInputChange name val ty (edited (input s) edits))
       ≠ effect_deps (edited (input s) edits) →
       (800 ≤ wait)%nat →
       let s1 := exec s (burst edits ++ [Change name val ty]) in
       runs s1 = runs s
       ∧ runs (dispatch s1 (Elapse wait))
         = runs s ++ [new_run true (input s1) (clock s1 + 800)]
       ∧ timers (dispatch s1 (Elapse wait)) = []).
Proof.
  split; [|split; [|split]].
  - intros s Hs.
    destruct (reachable_timers_ok s Hs) as (_ & _ & [->|(t & -> & _)]);
      simpl; lia.
  - intros s name val ty Hs Hen Hne s'.
    pose proof (reachable_timers_ok s Hs) as Hok.
    assert (Hd : s' = setInput (handleInputChange name val ty (input s)) s).
    { unfold s', dispatch. by rewrite Hen. }
    destruct (setInput_restarts _ s Hok Hne) as (Ht & _).
    destruct (setInput_frame (handleInputChange name val ty (input s)) s)
      as (_&_&_&_& Hi &_).
    rewrite <- Hd in Ht, Hi. split.
    + intros t Hin. rewrite Ht.
      destruct (truthy _); [|apply not_elem_of_nil].
      destruct Hok as (_ & _ & [Hnil|(t0 & Ht0 & _ & Hid)]).
      * rewrite Hnil in Hin. by apply elem_of_nil in Hin.
      * rewrite Ht0 in Hin. apply list_elem_of_singleton in Hin. subst t0.
        intros Heq%list_elem_of_singleton. rewrite Heq in Hid. simpl in Hid. lia.
    + intros Hn. by rewrite Ht, Hn, Hi.
  - intros s evs Hs Hm.
    pose proof (reachable_timers_ok s Hs) as Hok.
    assert (Hd : dispatch s Unmount = with_mounted false (clear_pending s)).
    { unfold dispatch. simpl. by rewrite Hm. }
    pose proof (clear_pending_clears s Hok) as Hc.
    destruct (clear_pending_frame s) as (_&_&_&_&_&_&_&_&_& Hr &_).
    rewrite Hd. split; [done|].
    rewrite torn_down_forever; [|done..]. simpl. by rewrite Hr.
  - intros s edits name val ty wait Hs Hm Hst Hn Hr Hne Hw s1.
    pose proof (reachable_timers_ok s Hs) as Hok.
    destruct (burst_starts_nothing edits s Hok Hm Hst Hn Hr)
      as (Hok' & Hm' & Hst' & Ha' & Hi' & Hr').
    set (s0 := exec s (burst edits)) in *.
    set (i := handleInputChange name val ty (input s0)).
    assert (Hs1 : s1 = setInput i s0).
    { unfold s1. rewrite exec_app. fold s0. cbn [exec foldl].
      unfold dispatch. simpl. by rewrite Hm', Hst'. }
    rewrite <- Hi' in Hne.
    destruct (setInput_restarts i s0 Hok' Hne) as (Ht & _).
    rewrite Ha', Hn in Ht.
    destruct (setInput_frame i s0) as (_&_&_&_& Hi1 &_& Hc1 & Hr1 &_).
    rewrite <- Hs1 in Ht, Hi1, Hc1, Hr1.
    assert (Hd : dispatch s1 (Elapse wait) = elapse wait s1) by done.
    rewrite Hd.
    destruct (elapse_due wait s1 _ Ht) as (Ht2 & Hr2).
    { simpl. lia. }
    rewrite Ht2, Hr2, Hr1, Hr'. simpl. by rewrite Hi1, Hc1.
Qed.
End c6.

Lemma debounce_timer_is_single_flight_witness :
  runs (exec back_on_form
          (burst slider_burst ++ [Change "carbonIntensity" "20" "range"]))
  = runs back_on_form
  ∧ runs (dispatch
            (exec back_on_form
               (burst slider_burst ++ [Change "carbonIntensity" "20" "range"]))
            (Elapse 800))
    = runs back_on_form
      ++ [new_run true
            (input (exec back_on_form
                      (burst slider_burst
                         ++ [Change "carbonIntensity" "20" "range"])))
            (clock (exec back_on_form
                      (burst slider_burst
                         ++ [Change "carbonIntensity" "20" "range"])) + 800)]
  ∧ timers (dispatch
              (exec back_on_form
                 (burst slider_burst
                    ++ [Change "carbonIntensity" "20" "range"]))
              (Elapse 800)) = [].
Proof.
  destruct (debounce_timer_is_single_flight (H := host)) as (_ & _ & _ & Hb).
  apply (Hb back_on_form slider_burst "carbonIntensity" "20" "range" 800%nat).
  - by exists (first_run ++ [ClickBack]).
  - vm_compute. reflexivity.
  - vm_compute. reflexivity.
  - vm_compute. reflexivity.
  - cbn [rapid slider_burst].
    repeat split; first [compute_done | lia].
  - compute_done.
  - lia.
Defined.

Example slider_burst_runs_once :
  length (runs back_on_form) = 1%nat
  ∧ (λ ru, (isRealTime ru, started_at ru, snapshot ru !! "carbonIntensity"))
      <$> drop 1 (runs (exec back_on_form
                          (burst slider_burst
                             ++ [Change "carbonIntensity" "20" "range";
                                 Elapse 800])))
    = [(true, 1909%nat, Some (VNum (Some 20)))].
Proof. vm_compute. done. Qed.

(** ** A run in flight is isolated from edits *)

Section c9.
Context `{Host}.

Lemma dispatch_run_other s e rid ru :
  runs s !! rid = Some ru → (∀ st r, e ≠ Settle rid st r) →
  runs (dispatch s e) !! rid = Some ru.
Proof.
  intros Hru Hne. unfold dispatch. destruct (enabled s e); [|done].
  pose proof (lookup_lt_Some _ _ _ Hru) as Hlt.
  destruct e as [name val ty|ty| | | |ms|rid' st r|]; unfold handle.
  - by destruct (setInput_frame (handleInputChange name val ty (input s)) s)
      as (_&_&_&_&_&_&_& -> &_).
  - by destruct (setInput_frame (<["businessType" := VStr ty]> (input s)) s)
      as (_&_&_&_&_&_&_& -> &_).
  - by rewrite runAnalysis_runs, lookup_app_l.
  - done.
  - done.
  - by rewrite elapse_runs, lookup_app_l.
  - destruct (runs s !! rid') as [ru'|] eqn:Hru'.
    + rewrite (settle_runs _ _ _ _ _ Hru'), list_lookup_insert_ne; [done|].
      intros ->. by apply (Hne st r).
    + by rewrite settle_unknown.
  - simpl. by destruct (clear_pending_frame s) as (_&_&_&_&_&_&_&_&_& -> &_).
Qed.

Lemma dispatch_run_self s rid st r ru :
  runs s !! rid = Some ru →
  runs (dispatch s (Settle rid st r)) !! rid = Some (advance ru st r).
Proof.
  intros Hru. unfold dispatch. simpl.
  rewrite (settle_runs _ _ _ _ _ Hru). apply list_lookup_insert_eq.
  by eapply lookup_lt_Some.
Qed.

(** What becomes of a run depends on the run and on the settlements of
    its own calls, and on nothing else that happens meanwhile. *)
Lemma exec_run s rid ru evs :
  runs s !! rid = Some ru →
  runs (exec s evs) !! rid = Some (replay ru (replies rid evs)).
Proof.
  revert s ru. induction evs as [|e evs IH]; intros s ru Hru; [done|].
  rewrite exec_cons.
  destruct e as [name val ty|ty| | | |ms|rid' st r|];
    try (apply IH, dispatch_run_other; done).
  unfold replies. simpl. destruct (decide (rid' = rid)) as [->|Hne].
  - simpl. apply IH. by apply dispatch_run_self.
  - apply IH. apply dispatch_run_other; [done|congruence].
Qed.

(** The mode of a run decides on the alert and on the step, not on what
    the stages are fed. *)
Lemma resume_feeds b1 b2 p st r :
  match resume b1 p st r, resume b2 p st r with
  | Some r1, Some r2 =>
      r1.2 = r2.2 ∧ feeds (executed b1 r1) = feeds (executed b2 r2)
  | None, None => True
  | _, _ => False
  end.
Proof.
  destruct p, st; simpl; try done;
    repeat match goal with sl : slot |- _ => destruct sl end;
    simpl; try done;
    destruct (parse_response r); simpl; try done; unfold_run;
    repeat match goal with
           | |- context [if is_null ?v then _ else _] =>
               destruct (is_null v) eqn:?; simpl in *
           | |- context [if is_null ?v || _ then _ else _] =>
               destruct (is_null v) eqn:?; simpl in *
           | |- context [if score_throws ?v then _ else _] =>
               destruct (score_throws v) eqn:?; simpl in *
           | |- context [if score_throws ?v || _ then _ else _] =>
               destruct (score_throws v) eqn:?; simpl in *
           end;
    by destruct b1, b2.
Qed.

Lemma advance_feeds ru1 ru2 st r :
  pc ru1 = pc ru2 → feeds (history ru1) = feeds (history ru2) →
  pc (advance ru1 st r) = pc (advance ru2 st r)
  ∧ feeds (history (advance ru1 st r)) = feeds (history (advance ru2 st r)).
Proof.
  intros Hpc Hf. unfold advance. rewrite Hpc.
  pose proof (resume_feeds (isRealTime ru1) (isRealTime ru2) (pc ru2) st r)
    as Hr.
  destruct (resume (isRealTime ru1) _ _ _) as [r1|],
           (resume (isRealTime ru2) _ _ _) as [r2|]; try done.
  destruct Hr as [Ho Hx]. simpl. rewrite !feeds_app, Hf, Hx, Ho. done.
Qed.

Lemma replay_feeds ru1 ru2 rs :
  pc ru1 = pc ru2 → feeds (history ru1) = feeds (history ru2) →
  feeds (history (replay ru1 rs)) = feeds (history (replay ru2 rs)).
Proof.
  revert ru1 ru2. induction rs as [|[st r] rs IH]; intros ru1 ru2 Hpc Hf;
    [done|].
  simpl. destruct (advance_feeds ru1 ru2 st r Hpc Hf). by apply IH.
Qed.

End c9.

Example disturbed_run_is_fed_the_first_snapshot :
  input (exec (exec init [ClickProceed]) disturbed) !! "carbonIntensity"
  = Some (VNum (Some 5))
  ∧ snapshot (run_at (exec (exec init [ClickProceed]) disturbed) 0)
    = initial_input
  ∧ take 2 (feeds (history (run_at (exec (exec init [ClickProceed]) disturbed) 0)))
    = [FedAdapter StNormalize (ArgInput initial_input);
       FedOracle StNormalize (PromptInput initial_input)].
Proof. refine (conj _ (conj _ _)); vm_compute; reflexivity. Qed.

(** The closure of a timer holds the input of the render that armed it:
    a background run is fed the input as of the last watched-field edit,
    also when another field was edited before the timer fired. *)
Example background_run_is_fed_the_armed_input :
  let s := exec back_on_form
             [Change "carbonIntensity" "20" "range";
              Change "energySource" "Solar" "textarea";
              Elapse 800] in
  input s !! "energySource" = Some (VStr "Solar")
  ∧ snapshot (run_at s 1) !! "energySource"
    = Some (VStr "Grid Mix (Coal heavy)")
  ∧ snapshot (run_at s 1) !! "carbonIntensity" = Some (VNum (Some 20)).
Proof. vm_compute. done. Qed.

(** ** The life of a run *)

Lemma requested_app l1 l2 :
  requested (l1 ++ l2) = requested l1 ++ requested l2.
Proof. apply omap_app. Qed.

Lemma loading_sets_app l1 l2 :
  loading_sets (l1 ++ l2) = loading_sets l1 ++ loading_sets l2.
Proof. apply omap_app. Qed.

Lemma realTime_sets_app l1 l2 :
  realTime_sets (l1 ++ l2) = realTime_sets l1 ++ realTime_sets l2.
Proof. apply omap_app. Qed.

Ltac norm_life :=
  repeat rewrite <- app_assoc; simpl;
  repeat (rewrite failures_app || rewrite invoked_app ||
          rewrite requested_app || rewrite published_app ||
          rewrite loading_sets_app || rewrite realTime_sets_app ||
          rewrite fmap_app); simpl.

Section run_life.
Context `{Host}.

(** A TypeError never comes from the oracle call or from [JSON.parse]. *)
Lemma parse_response_not_TypeError r : parse_response r ≠ inl TypeError.
Proof. destruct r as [|text]; simpl; [done|]. by destruct (JSON_parse text). Qed.

Lemma resume_life b p st r res l :
  pc_life b p l → resume b p st r = Some res →
  pc_life b (next_pc res.2) (l ++ executed b res).
Proof.
  intros Hpc Hres.
  destruct b; resume_cases Hres; destruct_and?;
    repeat match goal with
           | Hf : Forall _ (_ :: _) |- _ => inversion_clear Hf
           end;
    try congruence;
    norm_life;
    repeat match goal with Heq : _ = _ |- _ => rewrite Heq end; simpl;
    repeat split; try done; try compute_done;
    try (repeat constructor; done);
    try (intros st Hst; set_unfold in Hst; destruct_or?; simplify_eq; auto);
    try (by destruct (parse_response_not_TypeError r));
    match goal with
    | Hin : (_, _) ∈ _ |- _ => set_unfold in Hin; destruct_or?; simplify_eq
    end;
    solve [ set_solver
          | intros _ ->; by destruct (parse_response_not_TypeError r) ].
Qed.

Lemma advance_life ru st r : run_life ru → run_life (advance ru st r).
Proof.
  unfold run_life, advance. intros Hl.
  destruct (resume _ _ _ _) as [res|] eqn:Hres; [|done].
  simpl. by eapply resume_life.
Qed.

Lemma new_run_life b i now : run_life (new_run b i now).
Proof. destruct b; repeat split; constructor. Qed.

Lemma dispatch_runs_life s e :
  Forall run_life (runs s) → Forall run_life (runs (dispatch s e)).
Proof.
  intros Hok. unfold dispatch. destruct (enabled s e); [|done].
  destruct e as [name val ty|ty| | | |ms|rid st r|]; unfold handle.
  - by destruct (setInput_frame (handleInputChange name val ty (input s)) s)
      as (_ & _ & _ & _ & _ & _ & _ & -> & _).
  - by destruct (setInput_frame (<["businessType" := VStr ty]> (input s)) s)
      as (_ & _ & _ & _ & _ & _ & _ & -> & _).
  - rewrite runAnalysis_runs. apply Forall_app. split; [done|].
    apply Forall_singleton, new_run_life.
  - done.
  - done.
  - rewrite elapse_runs. apply Forall_app. split; [done|].
    apply Forall_fmap, Forall_forall. intros t _. apply new_run_life.
  - destruct (runs s !! rid) as [ru|] eqn:Hru.
    + rewrite (settle_runs _ _ _ _ _ Hru). apply Forall_insert; [done|].
      apply advance_life. by eapply Forall_lookup_1.
    + by rewrite settle_unknown.
  - simpl. by destruct (clear_pending_frame s) as (_&_&_&_&_&_&_&_&_& -> &_).
Qed.

Lemma reachable_run_life s rid ru :
  reachable s → runs s !! rid = Some ru → run_life ru.
Proof.
  intros Hs Hru. eapply Forall_lookup_1; [|done]. clear Hru. revert s Hs.
  apply (reachable_invariant (λ s, Forall run_life (runs s))).
  - constructor.
  - apply dispatch_runs_life.
Qed.

End run_life.

Section run_life_extras.
Context `{Host}.

(** X1. In every run the oracle is called for the stages in the order
    normalize, financial risk, sustainability risk, decision, uplift,
    simulation, review, without gap or repetition: a run makes at most
    seven oracle calls, at most one per stage, and the adapters are
    called in the same order. *)
Theorem oracle_calls_follow_the_stage_order s rid ru :
  reachable s → runs s !! rid = Some ru →
  requested (history ru) `prefix_of` stage_order
  ∧ invoked (history ru) `prefix_of` stage_order
  ∧ NoDup (requested (history ru))
  ∧ (length (requested (history ru)) ≤ 7)%nat.
Proof.
  intros Hs Hru. pose proof (reachable_run_life s rid ru Hs Hru) as Hl.
  assert (Hp : requested (history ru) `prefix_of` stage_order
               ∧ invoked (history ru) `prefix_of` stage_order).
  { unfold run_life in Hl. destruct (pc ru); simpl in Hl;
      destruct Hl as (Hr & Hi & _); try done;
      rewrite Hr, Hi; split; compute_done. }
  destruct Hp as [Hr Hi]. repeat split; try done.
  - destruct Hr as [k Hk]. assert (Hnd : NoDup stage_order) by compute_done.
    rewrite Hk in Hnd. by apply NoDup_app in Hnd as (? & _).
  - apply prefix_length in Hr. done.
Qed.

(** X2. A run sets each artifact at most once, in stage order, and a
    run that has set the artifact of a stage has set those of all stages
    before it. *)
Theorem artifacts_are_set_once_in_stage_order s rid ru :
  reachable s → runs s !! rid = Some ru →
  (published (history ru)).*1 `prefix_of` stage_order
  ∧ NoDup (published (history ru)).*1.
Proof.
  intros Hs Hru. pose proof (reachable_run_life s rid ru Hs Hru) as Hl.
  assert (Hp : (published (history ru)).*1 `prefix_of` stage_order).
  { unfold run_life in Hl. destruct (pc ru); simpl in Hl;
      destruct Hl as (_ & _ & Hp & _); try done; rewrite Hp; compute_done. }
  split; [done|].
  destruct Hp as [k Hk]. assert (Hnd : NoDup stage_order) by compute_done.
  rewrite Hk in Hnd. by apply NoDup_app in Hnd as (? & _).
Qed.

(** X3. The progress flags over the life of a run: [setLoading(true)] is
    called once, at the start, by an interactive run and never by a
    background run; [setRealTimeUpdate(true)] once at the start of every
    run; both are set to false exactly once, when the run ends, whether
    it succeeded or failed. *)
Theorem progress_flags_over_a_run s rid ru :
  reachable s → runs s !! rid = Some ru →
  loading_sets (history ru)
  = (if isRealTime ru then [] else [true])
      ++ (if is_finished (pc ru) then [false] else [])
  ∧ realTime_sets (history ru)
    = [true] ++ (if is_finished (pc ru) then [false] else []).
Proof.
  intros Hs Hru. pose proof (reachable_run_life s rid ru Hs Hru) as Hl.
  unfold run_life in Hl. destruct (pc ru); simpl in Hl;
    destruct Hl as (_ & _ & _ & -> & -> & _);
    by rewrite ?app_nil_r.
Qed.

(** X4. A TypeError can end a run at two places only: at the risk
    scorers, when normalize resolved with null, and at the decision,
    when a risk scorer resolved with null or with a score that does not
    print.  The adapters of uplift, simulation and review never throw:
    the scores they print have been printed by the decision before. *)
Theorem type_errors_come_from_null_results s rid ru st :
  reachable s → runs s !! rid = Some ru →
  Failed st TypeError ∈ history ru →
  st = StFinancial ∨ st = StDecision.
Proof.
  intros Hs Hru Hin. pose proof (reachable_run_life s rid ru Hs Hru) as Hl.
  apply elem_of_failures in Hin.
  unfold run_life in Hl. destruct (pc ru); simpl in Hl;
    try (destruct Hl as (_ & _ & _ & _ & _ & Hf & _); rewrite Hf in Hin;
         by apply elem_of_nil in Hin).
  destruct Hl as (_ & _ & _ & _ & _ & Hf & _). by apply Hf.
Qed.

End run_life_extras.

Lemma oracle_calls_follow_the_stage_order_witness :
  requested (history (run_at (exec init sibling_fails) 0))
    `prefix_of` stage_order
  ∧ invoked (history (run_at (exec init sibling_fails) 0))
      `prefix_of` stage_order
  ∧ NoDup (requested (history (run_at (exec init sibling_fails) 0)))
  ∧ (length (requested (history (run_at (exec init sibling_fails) 0)))
     ≤ 7)%nat.
Proof.
  apply (oracle_calls_follow_the_stage_order (exec init sibling_fails) 0).
  - by exists sibling_fails.
  - vm_compute. reflexivity.
Defined.

Lemma artifacts_are_set_once_in_stage_order_witness :
  (published (history (run_at (exec init first_run) 0))).*1
    `prefix_of` stage_order
  ∧ NoDup (published (history (run_at (exec init first_run) 0))).*1.
Proof.
  apply (artifacts_are_set_once_in_stage_order (exec init first_run) 0).
  - by exists first_run.
  - vm_compute. reflexivity.
Defined.

Lemma progress_flags_over_a_run_witness :
  loading_sets (history (run_at (exec init background_run_begins) 1))
  = (if isRealTime (run_at (exec init background_run_begins) 1)
     then [] else [true])
      ++ (if is_finished (pc (run_at (exec init background_run_begins) 1))
          then [false] else [])
  ∧ realTime_sets (history (run_at (exec init background_run_begins) 1))
    = [true]
        ++ (if is_finished (pc (run_at (exec init background_run_begins) 1))
            then [false] else []).
Proof.
  apply (progress_flags_over_a_run (exec init background_run_begins) 1).
  - by exists background_run_begins.
  - vm_compute. reflexivity.
Defined.

Lemma type_errors_come_from_null_results_witness :
  Failed StFinancial TypeError
    ∈ history (run_at (exec init null_normalize) 0)
  ∧ (StFinancial = StFinancial ∨ StFinancial = StDecision).
Proof.
  assert (Hin : Failed StFinancial TypeError
                  ∈ history (run_at (exec init null_normalize) 0)).
  { vm_compute. pick. }
  refine (conj Hin _).
  apply (type_errors_come_from_null_results (exec init null_normalize) 0
           (run_at (exec init null_normalize) 0) StFinancial).
  - by exists null_normalize.
  - vm_compute. reflexivity.
  - exact Hin.
Defined.

(** ** More on the component *)

Section component_extras.
Context `{Host}.

Lemma resume_never_suspends_finished b p st r acts p' :
  resume b p st r = Some (acts, Suspend p') → p' ≠ Finished.
Proof. intros Hres. by resume_cases Hres. Qed.

Lemma executed_clears_flags b res s :
  next_pc res.2 = Finished → (∀ p, res.2 ≠ Suspend p) →
  loading (apply_actions s (executed b res)) = false
  ∧ realTimeUpdate (apply_actions s (executed b res)) = false.
Proof.
  intros _ Hns. unfold executed. rewrite apply_actions_app.
  destruct res as [acts [p|e|]]; simpl; [by destruct (Hns p)|..];
    by destruct b.
Qed.

Lemma dispatch_idle_flags s e :
  (idle s → loading s = false ∧ realTimeUpdate s = false) →
  idle (dispatch s e) →
  loading (dispatch s e) = false ∧ realTimeUpdate (dispatch s e) = false.
Proof.
  intros Hinv. unfold dispatch, idle. destruct (enabled s e); [|done].
  destruct e as [name val ty|ty| | | |ms|rid st r|]; unfold handle.
  - destruct (setInput_frame (handleInputChange name val ty (input s)) s)
      as (_ & _ & -> & -> & _ & _ & _ & -> & _). done.
  - destruct (setInput_frame (<["businessType" := VStr ty]> (input s)) s)
      as (_ & _ & -> & -> & _ & _ & _ & -> & _). done.
  - rewrite runAnalysis_runs. intros [_ Hn]%Forall_app.
    by inversion Hn.
  - done.
  - done.
  - rewrite elapse_runs. intros [Hi Hn]%Forall_app.
    destruct (List.filter _ _) as [|t ts] eqn:Hdue.
    + unfold elapse. rewrite Hdue. simpl. by apply Hinv.
    + simpl in Hn. by inversion Hn.
  - destruct (runs s !! rid) as [ru|] eqn:Hru; [|by rewrite settle_unknown].
    rewrite (settle_runs _ _ _ _ _ Hru). intros Hall.
    unfold settle, advance in *. rewrite Hru.
    destruct (resume _ _ _ _) as [res|] eqn:Hres.
    + simpl. apply executed_clears_flags.
      * rewrite Forall_lookup in Hall.
        apply (Hall rid (run_after ru res)), list_lookup_insert_eq.
        by eapply lookup_lt_Some.
      * intros p Hp. destruct res as [acts o]. simpl in Hp. subst o.
        apply (resume_never_suspends_finished _ _ _ _ _ _ Hres).
        rewrite Forall_lookup in Hall.
        apply (Hall rid (run_after ru (acts, Suspend p))), list_lookup_insert_eq.
        by eapply lookup_lt_Some.
    + apply Hinv. by rewrite list_insert_id in Hall.
  - simpl. destruct (clear_pending_frame s)
      as (_ & _ & -> & -> & _ & _ & _ & _ & _ & -> & _). done.
Qed.

(** X5. When no run is in flight the Proceed button is enabled and the
    syncing indicator is off: in every reachable state in which every
    invocation of [runAnalysis] has ended, [loading] and
    [realTimeUpdate] are both false. *)
Theorem no_run_in_flight_clears_the_flags s :
  reachable s → idle s → loading s = false ∧ realTimeUpdate s = false.
Proof.
  revert s.
  apply (reachable_invariant
           (λ s, idle s → loading s = false ∧ realTimeUpdate s = false)).
  - done.
  - intros s e. apply dispatch_idle_flags.
Qed.

End component_extras.

Lemma no_run_in_flight_clears_the_flags_witness :
  loading (exec init first_run) = false
  ∧ realTimeUpdate (exec init first_run) = false.
Proof.
  apply (no_run_in_flight_clears_the_flags (exec init first_run)).
  - by exists first_run.
  - vm_compute. repeat constructor.
Defined.

Section navigation_extras.
Context `{Host}.

Lemma advance_extends ru st r :
  isRealTime (advance ru st r) = isRealTime ru
  ∧ snapshot (advance ru st r) = snapshot ru
  ∧ history ru `prefix_of` history (advance ru st r).
Proof.
  unfold advance. destruct (resume _ _ _ _) as [res|]; simpl; [|done].
  repeat split. by eexists.
Qed.

(** A run is never dropped, and its history only grows. *)
Lemma runs_persist s e ru :
  ru ∈ runs s →
  ∃ ru', ru' ∈ runs (dispatch s e) ∧ isRealTime ru' = isRealTime ru
         ∧ snapshot ru' = snapshot ru
         ∧ history ru `prefix_of` history ru'.
Proof.
  intros [rid Hru]%list_elem_of_lookup.
  assert (Hother : (∀ st r, e ≠ Settle rid st r) →
                   ∃ ru', ru' ∈ runs (dispatch s e)
                          ∧ isRealTime ru' = isRealTime ru
                          ∧ snapshot ru' = snapshot ru
                          ∧ history ru `prefix_of` history ru').
  { intros Hne. exists ru. split; [|done].
    eapply list_elem_of_lookup_2. by apply dispatch_run_other. }
  destruct e as [name val ty|ty| | | |ms|rid' st r|]; try by apply Hother.
  destruct (decide (rid' = rid)) as [->|Hne].
  - exists (advance ru st r). split; [|apply advance_extends].
    eapply list_elem_of_lookup_2. by apply dispatch_run_self.
  - apply Hother. congruence.
Qed.

Lemma completed_persists s e :
  (∃ ru, ru ∈ runs s ∧ completed_interactively ru) →
  ∃ ru, ru ∈ runs (dispatch s e) ∧ completed_interactively ru.
Proof.
  intros (ru & Hin & Hb & Hs).
  destruct (runs_persist s e ru Hin) as (ru' & Hin' & Hb' & _ & [k Hk]).
  exists ru'. split; [done|]. split; [congruence|].
  rewrite Hk. apply elem_of_app. by left.
Qed.

Lemma resume_return_sets_step p st r acts :
  resume false p st r = Some (acts, Return) →
  SetStep AppStep.Normalization ∈ acts.
Proof. intros Hres. resume_cases Hres. set_solver. Qed.

Lemma dispatch_navigation s e :
  (step s ≠ AppStep.Input → ∃ ru, ru ∈ runs s ∧ completed_interactively ru) →
  step (dispatch s e) ≠ AppStep.Input →
  ∃ ru, ru ∈ runs (dispatch s e) ∧ completed_interactively ru.
Proof.
  intros Hinv Hstep.
  destruct (decide (step s = AppStep.Input)) as [Hs|Hs];
    [|by apply completed_persists, Hinv].
  unfold dispatch in *. destruct (enabled s e) eqn:Hen; [|done].
  destruct e as [name val ty|ty| | | |ms|rid st r|]; unfold handle in *.
  - by destruct (setInput_frame (handleInputChange name val ty (input s)) s)
      as (_ & Hst & _); rewrite Hst in Hstep.
  - by destruct (setInput_frame (<["businessType" := VStr ty]> (input s)) s)
      as (_ & Hst & _); rewrite Hst in Hstep.
  - by destruct (runAnalysis_frame false (input s) (clock s) s)
      as (_ & Hst & _); rewrite Hst in Hstep.
  - simpl in Hen. rewrite Hs in Hen. by destruct (mounted s).
  - simpl in Hen. rewrite Hs in Hen. by destruct (mounted s).
  - by destruct (elapse_frame ms s) as (_ & Hst & _); rewrite Hst in Hstep.
  - destruct (settle_step rid st r s)
      as [Hst|(_ & ru & acts & Hru & Hb & Hres)]; [congruence|].
    exists (advance ru st r). split.
    + eapply list_elem_of_lookup_2.
      rewrite (settle_runs _ _ _ _ _ Hru). apply list_lookup_insert_eq.
      by eapply lookup_lt_Some.
    + unfold advance, completed_interactively. rewrite Hb, Hres. simpl.
      split; [done|]. apply elem_of_app. right. apply elem_of_app. left.
      by apply (resume_return_sets_step (pc ru) st r).
  - simpl in Hstep.
    by destruct (clear_pending_frame s) as (_ & Hst & _); rewrite Hst in Hstep.
Qed.

(** X6. The report steps are behind a successful interactive run: in
    every reachable state in which the wizard is not on the Input step,
    some interactive run has reached its last statement.  Neither the
    Next and Back buttons nor a background run can take the wizard off
    the Input step. *)
Theorem report_steps_need_a_completed_interactive_run s :
  reachable s → step s ≠ AppStep.Input →
  ∃ ru, ru ∈ runs s ∧ completed_interactively ru.
Proof.
  revert s.
  apply (reachable_invariant
           (λ s, step s ≠ AppStep.Input →
                 ∃ ru, ru ∈ runs s ∧ completed_interactively ru)).
  - done.
  - intros s e. apply dispatch_navigation.
Qed.

End navigation_extras.

Lemma report_steps_need_a_completed_interactive_run_witness :
  ∃ ru, ru ∈ runs (exec init first_run) ∧ completed_interactively ru.
Proof.
  apply (report_steps_need_a_completed_interactive_run (exec init first_run)).
  - by exists first_run.
  - vm_compute. discriminate.
Defined.

Section debounce_extras.
Context `{Host}.

Lemma dispatch_timers_current s e :
  timers_ok s → timers_current s → timers_current (dispatch s e).
Proof.
  intros Hok Hcur. unfold dispatch. destruct (enabled s e) eqn:Hen; [|done].
  unfold timers_current in *.
  assert (Hset : ∀ i, Forall (λ t, effect_deps (captured t) = effect_deps i
                                   ∧ (clock s < deadline t ≤ clock s + 800)%nat)
                        (timers (setInput i s))).
  { intros i.
    destruct (decide (effect_deps i = effect_deps (input s))) as [Heq|Hne].
    - unfold setInput. case_decide; [|done]. simpl. by rewrite Heq.
    - destruct (setInput_restarts i s Hok Hne) as (-> & _).
      destruct (truthy _); [|constructor].
      apply Forall_singleton. simpl. split; [done|lia]. }
  destruct e as [name val ty|ty| | | |ms|rid st r|]; unfold handle.
  - destruct (setInput_frame (handleInputChange name val ty (input s)) s)
      as (_&_&_&_& -> &_& -> &_). apply Hset.
  - destruct (setInput_frame (<["businessType" := VStr ty]> (input s)) s)
      as (_&_&_&_& -> &_& -> &_). apply Hset.
  - by destruct (runAnalysis_frame false (input s) (clock s) s)
      as (_&_& -> &_&_& -> & -> &_).
  - done.
  - done.
  - destruct (elapse_frame ms s) as (_&_& -> &_&_& -> & -> &_).
    rewrite Forall_forall in Hcur |- *. intros t Hin.
    apply list_elem_of_In, filter_In in Hin as [Hin Hdue].
    apply list_elem_of_In in Hin. destruct (Hcur t Hin) as (Hd & Hlt & Hle).
    split; [done|]. unfold is_due in Hdue.
    destruct (Nat.leb_spec (deadline t) (clock s + ms)); [done|]. lia.
  - by destruct (settle_frame rid st r s) as (_& -> &_& -> & -> &_).
  - simpl. destruct (clear_pending_frame s) as (_&_&_&_& -> &_&_& -> &_).
    rewrite Forall_forall in Hcur |- *. intros t Hin.
    by apply Hcur, clear_pending_timers.
Qed.

Lemma reachable_timers_current s : reachable s → timers_current s.
Proof.
  intros Hs.
  assert (Hboth : timers_ok s ∧ timers_current s); [|tauto].
  revert s Hs.
  apply (reachable_invariant (λ s, timers_ok s ∧ timers_current s)).
  - split; [|constructor]. repeat split; simpl; [lia|by left].
  - intros s e [Hok Hcur]. split.
    + by apply dispatch_timers_ok.
    + by apply dispatch_timers_current.
Qed.

(** X7. A pending debounce timer is never overdue and never more than
    800 ms away, and the input its callback holds agrees with the current
    input on all five watched fields (the other fields may have been
    edited since). *)
Theorem pending_timer_holds_the_watched_values s t :
  reachable s → t ∈ timers s →
  effect_deps (captured t) = effect_deps (input s)
  ∧ (clock s < deadline t ≤ clock s + 800)%nat.
Proof.
  intros Hs Hin. pose proof (reachable_timers_current s Hs) as Hcur.
  unfold timers_current in Hcur. rewrite Forall_forall in Hcur. by apply Hcur.
Qed.

(** X8. When time passes, at most one run starts; it is a background
    run, it starts within the elapsed interval, and the input it is fed
    has the values the five watched fields have at that moment. *)
Theorem elapsed_time_starts_at_most_one_background_run s ms :
  reachable s →
  ∃ new, runs (dispatch s (Elapse ms)) = runs s ++ new
         ∧ (length new ≤ 1)%nat
         ∧ Forall (λ ru, isRealTime ru = true
                         ∧ pc ru = AwaitNormalize
                         ∧ effect_deps (snapshot ru) = effect_deps (input s)
                         ∧ (clock s < started_at ru ≤ clock s + ms)%nat)
             new.
Proof.
  intros Hs. pose proof (reachable_timers_ok s Hs) as (_ & _ & Hone).
  pose proof (reachable_timers_current s Hs) as Hcur.
  unfold dispatch. simpl. rewrite elapse_runs. eexists. split; [done|].
  unfold timers_current in Hcur.
  destruct Hone as [Ht|(t & Ht & _)]; rewrite Ht in Hcur |- *; simpl.
  - split; [lia|constructor].
  - apply Forall_singleton in Hcur as (Hd & Hlt & _).
    unfold is_due. destruct (Nat.leb_spec (deadline t) (clock s + ms)); simpl.
    + split; [lia|]. apply Forall_singleton. simpl. repeat split; try done.
    + split; [lia|constructor].
Qed.

Lemma effect_deps_unwatched name v (i : BorrowerInput) :
  name ∉ watched → effect_deps (<[name := v]> i) = effect_deps i.
Proof.
  intros Hn. unfold effect_deps.
  rewrite !lookup_insert_ne; [done|..]; intros ->; apply Hn;
    unfold watched; set_solver.
Qed.

(** X9. An edit of a field that is not one of the five watched fields
    (industry, energy source, business type, ...) writes that field and
    nothing else: the pending timer, if any, keeps its deadline and its
    captured input, no timer is added, no run starts, and the artifacts,
    the step and the flags stay as they are. *)
Theorem unwatched_edit_leaves_the_debounce_alone s name val ty :
  name ∉ watched →
  enabled s (Change name val ty) = true →
  dispatch s (Change name val ty)
  = with_input (handleInputChange name val ty (input s)) s
  ∧ dispatch s (PickBusinessType ty)
    = with_input (<["businessType" := VStr ty]> (input s)) s.
Proof.
  intros Hn Hen. unfold dispatch. rewrite Hen.
  assert (Hen' : enabled s (PickBusinessType ty) = true) by done.
  rewrite Hen'. unfold handle, setInput, handleInputChange.
  rewrite !effect_deps_unwatched; [|unfold watched; set_solver|done].
  by case_decide.
Qed.

Lemma with_input_same s : with_input (input s) s = s.
Proof. by destruct s. Qed.

(** X10. An edit that writes the value a field already has is a no-op on
    the whole component: in particular a slider put back on its current
    value neither cancels nor restarts the debounce timer. *)
Theorem edit_to_the_same_value_is_a_no_op s name val ty :
  input s !! name
  = Some (if String.eqb ty "range" || String.eqb ty "number"
          then VNum (Number val) else VStr val) →
  dispatch s (Change name val ty) = s.
Proof.
  intros Hsame. unfold dispatch. destruct (enabled _ _); [|done].
  unfold handle, handleInputChange. rewrite insert_id; [|done].
  unfold setInput. case_decide; [|done]. apply with_input_same.
Qed.

(** X12. Back undoes Next and Next undoes Back, except at the ends: from
    any step below Review, Next then Back returns to it; from any step
    above Input, Back then Next returns to it; Next at Review and Back at
    Input stay where they are. *)
Theorem next_and_back_are_inverse_inside_the_range prev :
  AppStep.Input ≤ prev ≤ AppStep.Review →
  (prev < AppStep.Review → prevStep (nextStep prev) = prev)
  ∧ (AppStep.Input < prev → nextStep (prevStep prev) = prev)
  ∧ (prev = AppStep.Review → nextStep prev = prev)
  ∧ (prev = AppStep.Input → prevStep prev = prev).
Proof.
  unfold nextStep, prevStep, AppStep.Input, AppStep.Review. lia.
Qed.

End debounce_extras.

Lemma pending_timer_holds_the_watched_values_witness :
  ∃ t, timers armed = [t]
       ∧ effect_deps (captured t) = effect_deps (input armed)
       ∧ (clock armed < deadline t ≤ clock armed + 800)%nat.
Proof.
  eexists. split; [vm_compute; reflexivity|].
  apply (pending_timer_holds_the_watched_values armed).
  - exists (first_run ++ [ClickBack; Change "carbonIntensity" "20" "range"]).
    vm_compute. reflexivity.
  - vm_compute. apply list_elem_of_here.
Defined.

Lemma elapsed_time_starts_at_most_one_background_run_witness :
  ∃ new, runs (dispatch armed (Elapse 800)) = runs armed ++ new
         ∧ (length new ≤ 1)%nat
         ∧ Forall (λ ru, isRealTime ru = true
                         ∧ pc ru = AwaitNormalize
                         ∧ effect_deps (snapshot ru)
                           = effect_deps (input armed)
                         ∧ (clock armed < started_at ru
                            ≤ clock armed + 800)%nat)
             new.
Proof.
  apply (elapsed_time_starts_at_most_one_background_run armed 800).
  exists (first_run ++ [ClickBack; Change "carbonIntensity" "20" "range"]).
  vm_compute. reflexivity.
Defined.

Lemma unwatched_edit_leaves_the_debounce_alone_witness :
  dispatch armed (Change "industry" "Retail" "select-one")
  = with_input (handleInputChange "industry" "Retail" "select-one"
                  (input armed)) armed
  ∧ dispatch armed (PickBusinessType "select-one")
    = with_input (<["businessType" := VStr "select-one"]> (input armed)) armed.
Proof.
  apply (unwatched_edit_leaves_the_debounce_alone armed).
  - compute_done.
  - vm_compute. reflexivity.
Defined.

Lemma edit_to_the_same_value_is_a_no_op_witness :
  dispatch armed (Change "carbonIntensity" "20" "range") = armed.
Proof.
  apply (edit_to_the_same_value_is_a_no_op armed).
  vm_compute. reflexivity.
Defined.

Lemma next_and_back_are_inverse_inside_the_range_witness :
  prevStep (nextStep AppStep.Decision) = AppStep.Decision
  ∧ nextStep (prevStep AppStep.Decision) = AppStep.Decision.
Proof.
  destruct (next_and_back_are_inverse_inside_the_range AppStep.Decision)
    as (Hn & Hp & _).
  - compute_done.
  - split; [apply Hn|apply Hp]; compute_done.
Defined.

Section success.
Context `{Host}.

Lemma replay_history ru rs :
  history (replay ru rs) = history ru ++ trail ru rs.
Proof.
  revert ru. induction rs as [|[st r] rs IH]; intros ru; simpl.
  - by rewrite app_nil_r.
  - unfold replay in *. simpl. rewrite IH, app_assoc. f_equal.
    unfold advance, did. by destruct (resume _ _ _ _); simpl; rewrite ?app_nil_r.
Qed.

Lemma trail_pc_spec ru rs :
  trail ru rs = (trail_pc (isRealTime ru) (pc ru) rs).1
  ∧ pc (replay ru rs) = (trail_pc (isRealTime ru) (pc ru) rs).2.
Proof.
  revert ru. induction rs as [|[st r] rs IH]; intros ru; [done|].
  simpl. unfold did, advance, replay in *. simpl.
  destruct (resume _ _ _ _) as [res|] eqn:Hres; simpl.
  - destruct (IH (run_after ru res)) as [-> ->]. done.
  - destruct (IH ru) as [-> ->]. done.
Qed.

Lemma success_trail b risk_swapped plan_swapped rN rF rS rD rU rM rR
    norm fin sust dec up sim rev :
  parse_response rN = inr norm → parse_response rF = inr fin →
  parse_response rS = inr sust → parse_response rD = inr dec →
  parse_response rU = inr up → parse_response rM = inr sim →
  parse_response rR = inr rev →
  is_null norm = false →
  score_throws fin = false → score_throws sust = false →
  ∃ l, trail_pc b AwaitNormalize
         (success_replies risk_swapped plan_swapped rN rF rS rD rU rM rR)
       = (l, Finished)
       ∧ published l
         = [(StNormalize, norm); (StFinancial, fin);
            (StSustainability, sust); (StDecision, dec);
            (StUplift, up); (StSimulate, sim); (StReview, rev)]
       ∧ failures l = [] ∧ logged l = [] ∧ alerted l = []
       ∧ step_changes l = (if b then [] else [AppStep.Normalization])
       ∧ loading_sets l = [false] ∧ realTime_sets l = [false].
Proof.
  intros HN HF HS HD HU HM HR Hn Hf Hs.
  destruct risk_swapped, plan_swapped, b; eexists;
    (split;
     [ unfold success_replies; simpl;
       repeat first
         [ progress rewrite ?HN, ?HF, ?HS, ?HD, ?HU, ?HM, ?HR
         | progress unfold_run
         | progress rewrite ?Hn, ?Hf, ?Hs
         | progress simpl ];
       reflexivity
     | repeat split ]).
Qed.

(** X14. A run whose seven calls all answer JSON, the normalize result
    not null and the two risk results with a score that prints, runs to
    the end, whatever the order in which the members of each
    [Promise.all] settle and whatever edits, timers, unmounting and other
    runs come in between: it passes the seven parsed results to the seven
    setters, once each and in stage order, fails nowhere, logs and alerts
    nothing, clears both flags once, and sets the step to Normalization
    if and only if it is interactive. *)
Theorem successful_run_publishes_all_seven_results
    s rid ru evs risk_swapped plan_swapped rN rF rS rD rU rM rR
    norm fin sust dec up sim rev :
  runs s !! rid = Some ru → pc ru = AwaitNormalize →
  replies rid evs
  = success_replies risk_swapped plan_swapped rN rF rS rD rU rM rR →
  parse_response rN = inr norm → parse_response rF = inr fin →
  parse_response rS = inr sust → parse_response rD = inr dec →
  parse_response rU = inr up → parse_response rM = inr sim →
  parse_response rR = inr rev →
  is_null norm = false →
  score_throws fin = false → score_throws sust = false →
  ∃ ru' l,
    runs (exec s evs) !! rid = Some ru' ∧ pc ru' = Finished
    ∧ history ru' = history ru ++ l
    ∧ published l
      = [(StNormalize, norm); (StFinancial, fin); (StSustainability, sust);
         (StDecision, dec); (StUplift, up); (StSimulate, sim);
         (StReview, rev)]
    ∧ failures l = [] ∧ logged l = [] ∧ alerted l = []
    ∧ step_changes l
      = (if isRealTime ru then [] else [AppStep.Normalization])
    ∧ loading_sets l = [false] ∧ realTime_sets l = [false].
Proof.
  intros Hru Hpc Hrs HN HF HS HD HU HM HR Hn Hf Hs.
  destruct (success_trail (isRealTime ru) risk_swapped plan_swapped
              rN rF rS rD rU rM rR norm fin sust dec up sim rev)
    as (l & Hl & Hfacts); try done.
  destruct (trail_pc_spec ru (replies rid evs)) as [Htr Hp].
  rewrite Hpc, Hrs, Hl in Htr, Hp. cbn [fst snd] in Htr, Hp.
  exists (replay ru (replies rid evs)), l.
  split; [by apply exec_run|]. split; [by rewrite Hrs|].
  split; [|done]. by rewrite replay_history, Hrs, Htr.
Qed.

End success.

Lemma successful_run_publishes_all_seven_results_witness :
  ∃ ru' l,
    runs (exec (exec init [ClickProceed]) (tail first_run)) !! 0%nat
    = Some ru'
    ∧ pc ru' = Finished
    ∧ history ru' = history (run_at (exec init [ClickProceed]) 0) ++ l
    ∧ published l
      = [(StNormalize, payload ok_normalize);
         (StFinancial, payload ok_financial);
         (StSustainability, payload ok_sustainability);
         (StDecision, payload ok_decision);
         (StUplift, payload ok_uplift);
         (StSimulate, payload ok_simulate);
         (StReview, payload ok_review)]
    ∧ failures l = [] ∧ logged l = [] ∧ alerted l = []
    ∧ step_changes l
      = (if isRealTime (run_at (exec init [ClickProceed]) 0) then []
         else [AppStep.Normalization])
    ∧ loading_sets l = [false] ∧ realTime_sets l = [false].
Proof.
  apply (successful_run_publishes_all_seven_results
           (exec init [ClickProceed]) 0
           (run_at (exec init [ClickProceed]) 0) (tail first_run)
           true false
           ok_normalize ok_financial ok_sustainability ok_decision
           ok_uplift ok_simulate ok_review);
    vm_compute; reflexivity.
Defined.

Lemma run_ending_clears_flags `{Host} s rid ru st r res :
  runs s !! rid = Some ru →
  resume (isRealTime ru) (pc ru) st r = Some res →
  next_pc res.2 = Finished →
  loading (settle rid st r s) = false
  ∧ realTimeUpdate (settle rid st r s) = false
  ∧ ∀ rid' ru', rid' ≠ rid → runs s !! rid' = Some ru' →
                runs (settle rid st r s) !! rid' = Some ru'.
Proof.
  intros Hru Hres Hfin. split; [|split].
  1,2: unfold settle; rewrite Hru, Hres; simpl;
    apply executed_clears_flags; [done|];
    intros p Hp; destruct res as [acts o]; simpl in *; subst o;
    by apply (resume_never_suspends_finished _ _ _ _ _ _ Hres).
  intros rid' ru' Hne Hru'. rewrite (settle_runs _ _ _ _ _ Hru).
  by rewrite list_lookup_insert_ne.
Qed.

(** X15. The two progress flags are shared by all runs: the end of any
    run, background or not, clears [loading] and [realTimeUpdate] and
    leaves every other run as it is, in flight or not.  So a cleared
    [loading] does not mean that nothing is in flight: with the reference
    host there is a reachable state on the form in which [loading] is
    false and the Proceed button enabled while an interactive run is
    in flight. *)
Theorem any_run_ending_clears_the_shared_flags :
  (∀ (H : Host) s rid ru st r res,
     runs s !! rid = Some ru →
     resume (isRealTime ru) (pc ru) st r = Some res →
     next_pc res.2 = Finished →
     loading (settle rid st r s) = false
     ∧ realTimeUpdate (settle rid st r s) = false
     ∧ ∀ rid' ru', rid' ≠ rid → runs s !! rid' = Some ru' →
                   runs (settle rid st r s) !! rid' = Some ru')
  ∧ ∃ s rid ru,
      reachable (H := host) s ∧ loading s = false
      ∧ enabled s ClickProceed = true
      ∧ runs s !! rid = Some ru ∧ isRealTime ru = false
      ∧ pc ru ≠ Finished.
Proof.
  split; [intros H; apply run_ending_clears_flags|].
  exists (exec init background_fails_first), 0%nat,
    (run_at (exec init background_fails_first) 0).
  split; [by exists background_fails_first|].
  vm_compute. by repeat split.
Qed.

Lemma any_run_ending_clears_the_shared_flags_witness :
  loading (settle 1 StNormalize Rejected (exec init early_edit)) = false
  ∧ realTimeUpdate (settle 1 StNormalize Rejected (exec init early_edit))
    = false.
Proof.
  destruct any_run_ending_clears_the_shared_flags as [Hend _].
  destruct (Hend host (exec init early_edit) 1%nat
              (run_at (exec init early_edit) 1) StNormalize Rejected
              ([Failed StNormalize OracleError], Raise OracleError))
    as (Hl & Hr & _).
  - vm_compute. reflexivity.
  - vm_compute. reflexivity.
  - reflexivity.
  - exact (conj Hl Hr).
Defined.

(** ** What the adapters accept *)

Section c4.
Context `{Host}.

(** The task that delivers the settlement of the call of [st]: the stage
    fails when the call was rejected or its text does not parse, and
    resolves with the parsed value otherwise; any failure later in the
    same task is the TypeError of an adapter that was called and threw
    before it called the oracle. *)
Lemma resume_uses_parse_response b p st r res :
  resume b p st r = Some res →
  match parse_response r with
  | inl e => res = ([Failed st e], Raise e)
  | inr v =>
      ∃ rest, res.1 = Resolved st v :: rest
              ∧ ∀ st' e', Failed st' e' ∈ rest →
                          e' = TypeError ∧ st' ∈ invoked rest
                          ∧ st' ∉ requested rest
  end.
Proof.
  intros Hres. destruct b; resume_cases Hres; try done;
    (eexists; split; [reflexivity|]);
    intros st' e' Hin; set_unfold in Hin; destruct_or?; simplify_eq;
    (split; [done|]); split; compute_done.
Qed.

(** C4, as the code has it.  An adapter returns [JSON.parse] of the
    response text as it is.  The call of a stage whose oracle was called
    fails exactly when the oracle call rejects or the text is not JSON,
    and otherwise resolves with the parsed value, whatever its shape.
    The only other failure of a stage is the TypeError an adapter throws
    while it builds its prompt, before it calls the oracle: in every run
    a failed stage has called the oracle if and only if its error is not
    a TypeError, and starting a run fails nowhere.  In particular
    whatever JSON value the decide call answers is published as the
    decision, the decide stage does not fail, and the run calls the
    adapters of uplift and simulation. *)
Theorem adapters_return_the_parsed_payload_unchecked :
  (∀ r v, parse_response r = inr v
          ↔ ∃ text, r = Responded text ∧ JSON_parse text = Some v)
  ∧ (∀ r, (∃ e, parse_response r = inl e)
          ↔ r = Rejected ∨ ∃ text, r = Responded text ∧ JSON_parse text = None)
  ∧ (∀ b p st r res,
       resume b p st r = Some res →
       match parse_response r with
       | inl e => res = ([Failed st e], Raise e)
       | inr v =>
           ∃ rest, res.1 = Resolved st v :: rest
                   ∧ ∀ st' e', Failed st' e' ∈ rest →
                               e' = TypeError ∧ st' ∈ invoked rest
                               ∧ st' ∉ requested rest
       end)
  ∧ (∀ b i, failures (prologue b i).1 = []
            ∧ requested (prologue b i).1 = [StNormalize])
  ∧ (∀ s rid ru st e,
       reachable s → runs s !! rid = Some ru → Failed st e ∈ history ru →
       st ∈ invoked (history ru)
       ∧ (st ∈ requested (history ru) ↔ e ≠ TypeError))
  ∧ (∀ s rid ru norm fin sust text v,
       runs s !! rid = Some ru → pc ru = AwaitDecision norm fin sust →
       JSON_parse text = Some v →
       decision (artifacts (settle rid StDecision (Responded text) s)) = v
       ∧ ∃ ru' l,
           runs (settle rid StDecision (Responded text) s) !! rid = Some ru'
           ∧ history ru' = history ru ++ l
           ∧ (StDecision ∉ (failures l).*1)
           ∧ invoked l = [StUplift; StSimulate]).
Proof.
  split; [|split; [|split; [|split; [|split]]]].
  - intros r v. split.
    + destruct r as [|text]; simpl; [done|].
      destruct (JSON_parse text) eqn:Hp; intros; simplify_eq. eauto.
    + intros (text & -> & Hp). simpl. by rewrite Hp.
  - intros r. split.
    + intros [e He]. destruct r as [|text]; simpl in *; [by left|right].
      exists text. by destruct (JSON_parse text).
    + intros [->|(text & -> & Hp)]; simpl; [eauto|]. rewrite Hp. eauto.
  - apply resume_uses_parse_response.
  - intros b i. by destruct b.
  - intros s rid ru st e Hs Hru Hin.
    pose proof (reachable_run_life s rid ru Hs Hru) as Hl.
    apply elem_of_failures in Hin.
    unfold run_life in Hl. destruct (pc ru); simpl in Hl;
      try (destruct Hl as (_ & _ & _ & _ & _ & Hf & _); rewrite Hf in Hin;
           by apply elem_of_nil in Hin).
    destruct Hl as (_ & _ & _ & _ & _ & _ & Hf). by apply Hf.
  - intros s rid ru norm fin sust text v Hru Hpc Hp. split.
    + apply (settle_publishes s rid ru StDecision
               (Responded text) (after_decision norm fin sust v) StDecision v
               Hru).
      * rewrite Hpc. simpl. by rewrite Hp.
      * unfold after_decision, prepend. simpl. set_solver.
    + rewrite (settle_runs _ _ _ _ _ Hru).
      exists (advance ru StDecision (Responded text)).
      eexists. split.
      * apply list_lookup_insert_eq. by eapply lookup_lt_Some.
      * unfold advance. rewrite Hpc. simpl. rewrite Hp. simpl.
        split; [reflexivity|].
        unfold executed, after_decision. unfold_run.
        destruct (isRealTime ru), (score_throws sust), (score_throws fin);
          simpl; split; compute_done.
Qed.
End c4.

(** C4 as stated fails: the decide call answers a payload without
    [status]; the adapter returns it, the run publishes it as the
    decision, [greenCreditScore] included, and goes on to the next
    stages without any failure. *)
Lemma payload_without_status_is_published :
  let s := exec init status_missing in
  get_field "status" (payload decision_without_status) = None
  ∧ decision (artifacts s) = payload decision_without_status
  ∧ get_field "greenCreditScore" (decision (artifacts s)) = Some (JNum 55)
  ∧ failures (history (run_at s 0)) = []
  ∧ invoked (history (run_at s 0))
    = [StNormalize; StFinancial; StSustainability; StDecision;
       StUplift; StSimulate]
  ∧ console s = [] ∧ alerts s = [].
Proof. vm_compute. repeat split. Qed.

Lemma adapters_return_the_parsed_payload_unchecked_witness :
  decision
    (artifacts
       (settle 0 StDecision decision_without_status
          (exec init (take 4 status_missing))))
  = payload decision_without_status
  ∧ (StFinancial ∈ invoked (history (run_at (exec init null_normalize) 0))
     ∧ (StFinancial ∈ requested (history (run_at (exec init null_normalize) 0))
        ↔ TypeError ≠ TypeError)).
Proof.
  destruct (adapters_return_the_parsed_payload_unchecked (H := host))
    as (_ & _ & _ & _ & Hfail & Hdec).
  split.
  - eapply (Hdec (exec init (take 4 status_missing)) 0%nat
              (run_at (exec init (take 4 status_missing)) 0)).
    + vm_compute. reflexivity.
    + vm_compute. reflexivity.
    + vm_compute. reflexivity.
  - apply (Hfail (exec init null_normalize) 0%nat
             (run_at (exec init null_normalize) 0) StFinancial TypeError).
    + by exists null_normalize.
    + vm_compute. reflexivity.
    + vm_compute. pick.
Defined.

(** ** The snapshot of a run *)

Section c9_claim.
Context `{Host}.

(** A timer is armed with the input of the render that arms it. *)
Lemma armed_timer_captures_the_input s e t :
  t ∈ timers (dispatch s e) → t ∉ timers s →
  captured t = input (dispatch s e).
Proof.
  intros Hin Hnew. unfold dispatch in *.
  destruct (enabled s e); [|done].
  assert (Hset : ∀ i, t ∈ timers (setInput i s) →
                      captured t = input (setInput i s)).
  { intros i Ht.
    destruct (setInput_frame i s) as (_ & _ & _ & _ & -> & _).
    unfold setInput in Ht. case_decide; [done|].
    unfold debounce_effect in Ht.
    pose proof (clear_pending_frame (clear_pending (with_input i s))) as Hc1.
    pose proof (clear_pending_frame (with_input i s)) as Hc2.
    destruct_and!.
    destruct (truthy _).
    - simpl in Ht. apply elem_of_app in Ht as [Ht|Ht].
      + by do 2 apply clear_pending_timers in Ht.
      + apply list_elem_of_singleton in Ht. subst t. simpl in *. congruence.
    - by do 2 apply clear_pending_timers in Ht. }
  destruct e as [name val ty|ty| | | |ms|rid st r|]; unfold handle in *.
  - by apply Hset.
  - by apply Hset.
  - by destruct (runAnalysis_frame false (input s) (clock s) s)
      as (_&_&_&_&_&_& Ht &_); rewrite Ht in Hin.
  - done.
  - done.
  - destruct (elapse_frame ms s) as (_&_&_&_&_&_& Ht &_). rewrite Ht in Hin.
    apply list_elem_of_In, filter_In in Hin as [Hin _].
    by apply list_elem_of_In in Hin.
  - by destruct (settle_frame rid st r s) as (_&_&_&_& Ht &_);
      rewrite Ht in Hin.
  - simpl in Hin. by apply clear_pending_timers in Hin.
Qed.

(** C9, as the code has it.  A run reads the input once, from the
    closure that starts it: the adapter of normalize and through it the
    oracle receive that snapshot.  For a click the snapshot is the input
    at that moment.  A run started by the debounce timer gets the input
    the timer's closure captured, which is the input of the render that
    armed the timer and agrees with the input at the start of the run on
    the five watched fields.  An edit
    replaces the input of the component and leaves every run as it is.
    What a run in flight goes on to do is a function of the run and of
    the settlements of its own calls, so two runs that have fed the
    stages the same data so far and receive the same answers feed every
    stage the same data, whatever edits, timers and other runs come in
    between. *)
Theorem in_flight_run_keeps_its_snapshot :
  (∀ b i now,
     snapshot (new_run b i now) = i
     ∧ pc (new_run b i now) = AwaitNormalize
     ∧ feeds (history (new_run b i now))
       = [FedAdapter StNormalize (ArgInput i);
          FedOracle StNormalize (PromptInput i)])
  ∧ (∀ s, enabled s ClickProceed = true →
          runs (dispatch s ClickProceed)
          = runs s ++ [new_run false (input s) (clock s)])
  ∧ (∀ s ms,
       runs (dispatch s (Elapse ms))
       = runs s ++ ((λ t, new_run true (captured t) (deadline t))
                      <$> List.filter (is_due (clock s + ms)) (timers s)))
  ∧ (∀ s e t, t ∈ timers (dispatch s e) → t ∉ timers s →
              captured t = input (dispatch s e))
  ∧ (∀ s t, reachable s → t ∈ timers s →
            effect_deps (captured t) = effect_deps (input s))
  ∧ (∀ s name val ty,
       runs (dispatch s (Change name val ty)) = runs s
       ∧ runs (dispatch s (PickBusinessType ty)) = runs s)
  ∧ (∀ s rid ru evs,
       runs s !! rid = Some ru →
       runs (exec s evs) !! rid = Some (replay ru (replies rid evs)))
  ∧ (∀ s1 s2 rid1 rid2 ru1 ru2 evs1 evs2,
       runs s1 !! rid1 = Some ru1 → runs s2 !! rid2 = Some ru2 →
       pc ru1 = pc ru2 → feeds (history ru1) = feeds (history ru2) →
       replies rid1 evs1 = replies rid2 evs2 →
       ∃ ru1' ru2',
         runs (exec s1 evs1) !! rid1 = Some ru1'
         ∧ runs (exec s2 evs2) !! rid2 = Some ru2'
         ∧ feeds (history ru1') = feeds (history ru2')).
Proof.
  split; [|split; [|split; [|split; [|split; [|split; [|split]]]]]].
  - intros b i now. by destruct b.
  - intros s Hen. unfold dispatch. rewrite Hen. apply runAnalysis_runs.
  - intros s ms. apply elapse_runs.
  - apply armed_timer_captures_the_input.
  - intros s t Hs Hin.
    pose proof (reachable_timers_current s Hs) as Hcur.
    unfold timers_current in Hcur. rewrite Forall_forall in Hcur.
    by destruct (Hcur t Hin).
  - intros s name val ty. unfold dispatch. split.
    + destruct (enabled _ _); [|done]. unfold handle.
      by destruct (setInput_frame (handleInputChange name val ty (input s)) s)
        as (_&_&_&_&_&_&_& -> &_).
    + destruct (enabled _ _); [|done]. unfold handle.
      by destruct (setInput_frame (<["businessType" := VStr ty]> (input s)) s)
        as (_&_&_&_&_&_&_& -> &_).
  - apply exec_run.
  - intros s1 s2 rid1 rid2 ru1 ru2 evs1 evs2 H1 H2 Hpc Hf Hrs.
    exists (replay ru1 (replies rid1 evs1)), (replay ru2 (replies rid2 evs2)).
    split; [by apply exec_run|]. split; [by apply exec_run|].
    rewrite Hrs. by apply replay_feeds.
Qed.
End c9_claim.

Lemma in_flight_run_keeps_its_snapshot_witness :
  ∃ ru1' ru2',
    runs (exec (exec init [ClickProceed]) disturbed) !! 0%nat = Some ru1'
    ∧ runs (exec (exec init [ClickProceed]) undisturbed) !! 0%nat = Some ru2'
    ∧ feeds (history ru1') = feeds (history ru2').
Proof.
  destruct (in_flight_run_keeps_its_snapshot (H := host))
    as (_ & _ & _ & _ & _ & _ & _ & Hsame).
  apply (Hsame (exec init [ClickProceed]) (exec init [ClickProceed])
           0%nat 0%nat (run_at (exec init [ClickProceed]) 0)
           (run_at (exec init [ClickProceed]) 0)).
  - vm_compute. reflexivity.
  - vm_compute. reflexivity.
  - reflexivity.
  - reflexivity.
  - vm_compute. reflexivity.
Defined.

(** C9 as stated fails for a run the debounce timer starts: its snapshot
    is not taken at the moment it starts.  The slider edit arms the
    timer, the energy source is edited next, and the run that starts 800
    ms later is fed the energy source as it was before that edit. *)
Lemma background_run_starts_from_an_older_input :
  length (runs unwatched_edit_pending) = 1%nat
  ∧ runs (dispatch unwatched_edit_pending (Elapse 800)) !! 1%nat
    = Some (new_run true
              (snapshot (run_at (dispatch unwatched_edit_pending (Elapse 800)) 1))
              (clock unwatched_edit_pending + 800))
  ∧ input (dispatch unwatched_edit_pending (Elapse 800))
    = input unwatched_edit_pending
  ∧ input unwatched_edit_pending !! "energySource" = Some (VStr "Solar")
  ∧ snapshot (run_at (dispatch unwatched_edit_pending (Elapse 800)) 1)
      !! "energySource"
    = Some (VStr "Grid Mix (Coal heavy)")
  ∧ snapshot (run_at (dispatch unwatched_edit_pending (Elapse 800)) 1)
    ≠ input unwatched_edit_pending.
Proof.
  refine (conj _ (conj _ (conj _ (conj _ (conj _ _)))));
    try (vm_compute; reflexivity).
  intros Heq. apply (f_equal (λ m, m !! "energySource")) in Heq.
  vm_compute in Heq. discriminate.
Qed.

(** ** The earlier component *)

Ltac legacy_cases Hres :=
  match type of Hres with
  | Legacy.resume ?p ?st _ = Some _ =>
      destruct p, st; simpl in Hres; try discriminate
  end;
  repeat match goal with sl : slot |- _ => destruct sl end;
  simpl in Hres; try discriminate;
  match type of Hres with
  | context [parse_response ?r] => destruct (parse_response r) eqn:?
  end;
  simplify_eq;
  unfold Legacy.executed, Legacy.after_normalize, Legacy.after_review,
    Legacy.epilogue in *;
  unfold_run;
  repeat match goal with
         | |- context [if is_null ?v then _ else _] =>
             destruct (is_null v) eqn:?; simpl in *
         | |- context [if is_null ?v || _ then _ else _] =>
             destruct (is_null v) eqn:?; simpl in *
         | _ : context [if is_null ?v then _ else _] |- _ =>
             destruct (is_null v) eqn:?; simpl in *
         | _ : context [if is_null ?v || _ then _ else _] |- _ =>
             destruct (is_null v) eqn:?; simpl in *
         | |- context [if score_throws ?v then _ else _] =>
             destruct (score_throws v) eqn:?; simpl in *
         | |- context [if score_throws ?v || _ then _ else _] =>
             destruct (score_throws v) eqn:?; simpl in *
         | _ : context [if score_throws ?v then _ else _] |- _ =>
             destruct (score_throws v) eqn:?; simpl in *
         | _ : context [if score_throws ?v || _ then _ else _] |- _ =>
             destruct (score_throws v) eqn:?; simpl in *
         end;
  simpl in *; simplify_eq.

Section legacy.
Context `{Host}.

Lemma legacy_exec_cons s e evs :
  Legacy.exec s (e :: evs) = Legacy.exec (Legacy.dispatch s e) evs.
Proof. reflexivity. Qed.

Lemma legacy_reachable_invariant (P : app → Prop) :
  P Legacy.init → (∀ s e, P s → P (Legacy.dispatch s e)) →
  ∀ s, Legacy.reachable s → P s.
Proof.
  intros Hi Hstep s [evs ->]. generalize Legacy.init Hi. clear Hi.
  induction evs as [|e evs IH]; intros s Hs; [done|].
  rewrite legacy_exec_cons. apply IH, Hstep, Hs.
Qed.

Lemma legacy_resume_flags p st r res s :
  Legacy.resume p st r = Some res →
  loading (apply_actions s (Legacy.executed res))
  = (if is_finished (next_pc res.2) then false else loading s)
  ∧ p ≠ Finished.
Proof. intros Hres. by legacy_cases Hres. Qed.

Lemma legacy_settle_runs rid st r s ru :
  runs s !! rid = Some ru →
  runs (Legacy.settle rid st r s)
  = <[rid := match Legacy.resume (pc ru) st r with
             | Some res => Legacy.run_after ru res
             | None => ru
             end]> (runs s).
Proof.
  intros Hru. unfold Legacy.settle. rewrite Hru.
  destruct (Legacy.resume _ _ _) as [res|]; simpl.
  - by destruct (apply_actions_frame s (Legacy.executed res))
      as (_ & _ & _ & _ & _ & _ & ->).
  - by rewrite list_insert_id.
Qed.

Lemma legacy_dispatch_one_in_flight s e :
  Legacy.one_in_flight s → Legacy.one_in_flight (Legacy.dispatch s e).
Proof.
  intros [Hidle Hlast]. unfold Legacy.dispatch.
  destruct (Legacy.enabled s e) eqn:Hen; [|done].
  destruct e as [name val ty|ty| | | |ms|rid st r|]; unfold Legacy.handle;
    try done.
  - (* a new run starts: the button was enabled, so nothing was in flight *)
    assert (Hl : loading s = false).
    { simpl in Hen. by destruct (mounted s), (step s =? _), (loading s). }
    unfold Legacy.runAnalysis. simpl. split; [done|].
    right. exists (runs s), (Legacy.new_run (input s) (clock s)).
    split; [done|]. split; [by apply Hidle|done].
  - destruct (runs s !! rid) as [ru|] eqn:Hru;
      [|unfold Legacy.settle; by rewrite Hru].
    destruct (Legacy.resume (pc ru) st r) as [res|] eqn:Hres;
      [|unfold Legacy.settle; by rewrite Hru, Hres].
    destruct (legacy_resume_flags _ _ _ _ s Hres) as [Hflag Hnf].
    assert (Hl : loading s = true).
    { destruct (loading s) eqn:Hl; [done|].
      rewrite Forall_lookup in Hidle. by destruct Hnf, (Hidle eq_refl rid ru). }
    destruct Hlast as [[Hnil _]|(rs & ru0 & Hrs & Hfin & _)];
      [by rewrite Hnil in Hru|].
    assert (Hrid : rid = length rs ∧ ru0 = ru).
    { rewrite Hrs in Hru. destruct (decide (rid < length rs)%nat) as [Hlt|Hge].
      - rewrite lookup_app_l in Hru by done.
        rewrite Forall_lookup in Hfin. by destruct Hnf, (Hfin rid ru).
      - apply lookup_lt_Some in Hru as Hlen. rewrite length_app in Hlen.
        simpl in Hlen. assert (rid = length rs) as -> by lia.
        rewrite list_lookup_middle in Hru by done. by simplify_eq. }
    destruct Hrid as [-> ->].
    assert (Hruns : runs (Legacy.settle (length rs) st r s)
                    = rs ++ [Legacy.run_after ru res]).
    { rewrite (legacy_settle_runs _ _ _ _ _ Hru), Hres, Hrs.
      by rewrite insert_app_r_alt, Nat.sub_diag by done. }
    assert (Hload : loading (Legacy.settle (length rs) st r s)
                    = if is_finished (next_pc res.2) then false else true).
    { unfold Legacy.settle. rewrite Hru, Hres. simpl. by rewrite Hflag, Hl. }
    unfold Legacy.one_in_flight. rewrite Hload, Hruns. split.
    + intros Hf. apply Forall_app. split; [done|].
      apply Forall_singleton. simpl.
      by destruct (next_pc res.2).
    + right. eexists _, _. split; [done|]. split; [done|].
      simpl. by intros ->.
Qed.

(** X16. In the earlier component at most one run is ever in flight: in
    every reachable state any two runs that have not ended are the same
    run, and [loading] is false exactly when no run is in flight. *)
Theorem legacy_runs_never_overlap s :
  Legacy.reachable s →
  (∀ i j rui ruj,
     runs s !! i = Some rui → runs s !! j = Some ruj →
     pc rui ≠ Finished → pc ruj ≠ Finished → i = j)
  ∧ (loading s = false ↔ Forall (λ ru, pc ru = Finished) (runs s)).
Proof.
  intros Hs.
  assert (Hinv : Legacy.one_in_flight s).
  { revert s Hs. apply legacy_reachable_invariant.
    - split; [constructor|by left].
    - apply legacy_dispatch_one_in_flight. }
  destruct Hinv as [Hidle Hlast]. split.
  - intros i j rui ruj Hi Hj Hni Hnj.
    destruct Hlast as [[Hnil _]|(rs & ru & Hrs & Hfin & _)];
      [by rewrite Hnil in Hi|].
    rewrite Hrs in Hi, Hj. rewrite Forall_lookup in Hfin.
    assert (Hlast : ∀ k ruk, (rs ++ [ru]) !! k = Some ruk →
                             pc ruk ≠ Finished → k = length rs).
    { intros k ruk Hk Hnk.
      destruct (decide (k < length rs)%nat) as [Hlt|Hge].
      - rewrite lookup_app_l in Hk by done. by destruct Hnk, (Hfin k ruk).
      - apply lookup_lt_Some in Hk. rewrite length_app in Hk. simpl in Hk. lia. }
    by rewrite (Hlast i rui), (Hlast j ruj).
  - split; [done|]. intros Hall.
    destruct Hlast as [[_ Hl]|(rs & ru & Hrs & _ & Hl)]; [done|].
    apply Hl. rewrite Hrs in Hall. apply Forall_app in Hall as [_ Hall].
    by inversion Hall.
Qed.

End legacy.

Section legacy2.
Context `{Host}.

Lemma legacy_resume_step p st r res :
  Legacy.resume p st r = Some res →
  last (step_changes (Legacy.executed res)) = None
  ∨ (last (step_changes (Legacy.executed res)) = Some AppStep.Normalization
     ∧ p = AwaitNormalize ∧ st = StNormalize
     ∧ ∃ norm, parse_response r = inr norm).
Proof. intros Hres. legacy_cases Hres; eauto 10. Qed.

Lemma legacy_settle_step rid st r s :
  step (Legacy.settle rid st r s) = step s
  ∨ (step (Legacy.settle rid st r s) = AppStep.Normalization
     ∧ ∃ ru norm, runs s !! rid = Some ru ∧ pc ru = AwaitNormalize
                  ∧ st = StNormalize ∧ parse_response r = inr norm).
Proof.
  unfold Legacy.settle. destruct (runs s !! rid) as [ru|] eqn:Hru; [|by left].
  destruct (Legacy.resume _ _ _) as [res|] eqn:Hres; [|by left].
  simpl. rewrite apply_actions_step.
  destruct (legacy_resume_step _ _ _ _ Hres)
    as [->|(-> & Hpc & -> & norm & Hp)]; [by left|].
  right. split; [done|]. by exists ru, norm.
Qed.

Lemma legacy_run_keeps_history s e rid ru v :
  runs s !! rid = Some ru → Publish StNormalize v ∈ history ru →
  ∃ ru', runs (Legacy.dispatch s e) !! rid = Some ru'
         ∧ Publish StNormalize v ∈ history ru'.
Proof.
  intros Hru Hin. unfold Legacy.dispatch.
  destruct (Legacy.enabled s e); [|by eauto].
  destruct e as [name val ty|ty| | | |ms|rid' st r|]; unfold Legacy.handle;
    try by eauto.
  - exists ru. split; [|done]. unfold Legacy.runAnalysis. simpl.
    apply lookup_app_l_Some. done.
  - destruct (runs s !! rid') as [ru'|] eqn:Hru';
      [|unfold Legacy.settle; rewrite Hru'; by eauto].
    rewrite (legacy_settle_runs _ _ _ _ _ Hru').
    destruct (decide (rid' = rid)) as [->|Hne].
    + simplify_eq. eexists. split.
      * apply list_lookup_insert_eq. by eapply lookup_lt_Some.
      * destruct (Legacy.resume _ _ _); simpl; [|done].
        apply elem_of_app. by left.
    + exists ru. by rewrite list_lookup_insert_ne.
Qed.

(** X17. In the earlier component the wizard leaves the Input step in
    the very task in which normalize resolves, before any risk result
    exists; that is the only way a run changes the step, so a later
    failure leaves the wizard on the report; and in every reachable
    state off the Input step some run has published a normalize
    result. *)
Theorem legacy_step_follows_normalize :
  (∀ s rid ru r norm,
     runs s !! rid = Some ru → pc ru = AwaitNormalize →
     parse_response r = inr norm →
     step (Legacy.settle rid StNormalize r s) = AppStep.Normalization
     ∧ normalized (artifacts (Legacy.settle rid StNormalize r s)) = norm)
  ∧ (∀ s rid st r,
       step (Legacy.settle rid st r s) ≠ step s →
       ∃ ru norm, runs s !! rid = Some ru ∧ pc ru = AwaitNormalize
                  ∧ st = StNormalize ∧ parse_response r = inr norm)
  ∧ (∀ s, Legacy.reachable s → step s ≠ AppStep.Input →
          ∃ rid ru v, runs s !! rid = Some ru
                      ∧ Publish StNormalize v ∈ history ru).
Proof.
  split; [|split].
  - intros s rid ru r norm Hru Hpc Hp. unfold Legacy.settle.
    rewrite Hru, Hpc. simpl. rewrite Hp.
    unfold Legacy.executed, Legacy.after_normalize. unfold_run.
    by destruct (is_null norm).
  - intros s rid st r Hne.
    by destruct (legacy_settle_step rid st r s) as [?|[_ ?]].
  - apply (legacy_reachable_invariant
             (λ s, step s ≠ AppStep.Input →
                   ∃ rid ru v, runs s !! rid = Some ru
                               ∧ Publish StNormalize v ∈ history ru)); [done|].
    intros s e IH Hstep.
    destruct (decide (step s = AppStep.Input)) as [Hs|Hs].
    + unfold Legacy.dispatch in *.
      destruct (Legacy.enabled s e) eqn:Hen; [|done].
      destruct e as [name val ty|ty| | | |ms|rid st r|];
        unfold Legacy.handle in *; simpl in Hstep; try done.
      * simpl in Hen. rewrite Hs in Hen. by destruct (mounted s).
      * simpl in Hen. rewrite Hs in Hen. by destruct (mounted s).
      * destruct (legacy_settle_step rid st r s)
          as [Hst|(_ & ru & norm & Hru & Hpc & -> & Hp)]; [congruence|].
        exists rid. rewrite (legacy_settle_runs _ _ _ _ _ Hru), Hpc. simpl.
        rewrite Hp. eexists _, norm. split.
        -- apply list_lookup_insert_eq. by eapply lookup_lt_Some.
        -- simpl. apply elem_of_app. right.
           unfold Legacy.executed, Legacy.after_normalize. unfold_run.
           simpl. set_solver.
    + destruct (IH Hs) as (rid & ru & v & Hru & Hin).
      destruct (legacy_run_keeps_history s e rid ru v Hru Hin) as (ru' & ? & ?).
      by exists rid, ru', v.
Qed.

End legacy2.

Lemma legacy_runs_never_overlap_witness :
  (∀ i j rui ruj,
     runs (Legacy.exec Legacy.init retried) !! i = Some rui →
     runs (Legacy.exec Legacy.init retried) !! j = Some ruj →
     pc rui ≠ Finished → pc ruj ≠ Finished → i = j)
  ∧ (loading (Legacy.exec Legacy.init retried) = false
     ↔ Forall (λ ru, pc ru = Finished)
         (runs (Legacy.exec Legacy.init retried))).
Proof.
  apply (legacy_runs_never_overlap (Legacy.exec Legacy.init retried)).
  by exists retried.
Defined.

Lemma legacy_step_follows_normalize_witness :
  ∃ rid ru v,
    runs (Legacy.exec Legacy.init
            [ClickProceed; Settle 0 StNormalize ok_normalize]) !! rid
    = Some ru
    ∧ Publish StNormalize v ∈ history ru.
Proof.
  destruct (legacy_step_follows_normalize (H := host)) as (_ & _ & Hinv).
  apply Hinv.
  - by exists [ClickProceed; Settle 0 StNormalize ok_normalize].
  - vm_compute. discriminate.
Defined.
